(** * git-scanner: the probe, the tree walk and the ancestry filter of scanner.py

    A shallow embedding of [get_git_status], [scan_directory] and the
    noise-reduction filter of [print_report], with the properties of the
    specification stated over it.

    Python's [str] is embedded as [string]; a character is an [ascii], compared
    by its code, which is how Python orders strings.  The file system is a
    finite tree of directory listings, the git executable is a function from
    an argument vector and a working directory to the outcome of
    [subprocess.run]. *)

From Stdlib Require Import String Ascii List Bool Arith ZArith Lia.
From Stdlib Require Import Sorting Orders Permutation.
From Stdlib Require Import DecimalString.
Import ListNotations.

Local Open Scope string_scope.
Local Open Scope list_scope.

(** ** Python strings *)

Module PyStr.

(** [s.startswith(p)] *)
Definition startswith (s p : string) : bool := String.prefix p s.

(** [s.endswith(p)]: the last [len(p)] characters of [s] are [p]. *)
Definition endswith (s p : string) : bool :=
  (String.length p <=? String.length s)%nat
  && String.eqb (substring (String.length s - String.length p) (String.length p) s) p.

(** [s.endswith(tuple)]: some member of the tuple is a suffix. *)
Definition endswith_any (s : string) (ps : list string) : bool :=
  existsb (endswith s) ps.

(** [c.isspace()] on the characters of code below 256. *)
Definition isspace (c : ascii) : bool :=
  let n := nat_of_ascii c in
  ((9 <=? n) && (n <=? 13) || (28 <=? n) && (n <=? 32)
   || (n =? 133) || (n =? 160))%nat.

Fixpoint lstrip (s : string) : string :=
  match s with
  | String c s' => if isspace c then lstrip s' else s
  | EmptyString => EmptyString
  end.

(** Drops trailing white space: a character is kept when something that is
    kept follows it, or when it is not white space itself. *)
Fixpoint rstrip (s : string) : string :=
  match s with
  | String c s' =>
      match rstrip s' with
      | EmptyString => if isspace c then EmptyString else String c EmptyString
      | r => String c r
      end
  | EmptyString => EmptyString
  end.

(** [s.strip()] *)
Definition strip (s : string) : string := rstrip (lstrip s).

(** Truth value of a string in a condition: non-empty. *)
Definition truthy (s : string) : bool :=
  match s with EmptyString => false | _ => true end.

End PyStr.

(** ** [os.path] on POSIX *)

Module OsPath.

Definition sep : ascii := "/"%char.

Fixpoint endswith_sep (s : string) : bool :=
  match s with
  | EmptyString => false
  | String c EmptyString => Ascii.eqb c sep
  | String _ s' => endswith_sep s'
  end.

Definition startswith_sep (s : string) : bool :=
  match s with
  | String c _ => Ascii.eqb c sep
  | EmptyString => false
  end.

(** [posixpath.join(a, b)]: an absolute [b] replaces [a]; otherwise [b] is
    appended, after a separator unless [a] is empty or already ends in one. *)
Definition join (a b : string) : string :=
  if startswith_sep b then b
  else if (match a with EmptyString => true | _ => false end) || endswith_sep a
       then a ++ b
       else a ++ String sep b.

End OsPath.

(** ** RepositoryStatusProbe: [get_git_status] *)

(** The dictionary [status] of the probe. *)
Record Status := mkStatus {
  is_dirty : bool;
  unpushed : bool;
  error : option string
}.

Definition set_is_dirty (s : Status) (b : bool) : Status :=
  mkStatus b (unpushed s) (error s).
Definition set_unpushed (s : Status) (b : bool) : Status :=
  mkStatus (is_dirty s) b (error s).
Definition set_error (s : Status) (e : string) : Status :=
  mkStatus (is_dirty s) (unpushed s) (Some e).

(** An instance of class Exception (OSError, ValueError, SubprocessError,
    ...), the class that the probe's handler names, with what [str(e)]
    gives.  What is raised outside that class is in [Full] below. *)
Record Exception := mkException { str : string }.

(** What one [subprocess.run(argv, cwd=..., check=False)] does, when nothing
    outside class Exception is raised in it: it raises an instance of
    Exception, or it returns a CompletedProcess. *)
Inductive RunResult :=
| Raised (e : Exception)
| Completed (returncode : Z) (stdout stderr : string).

(** How the [try] block of the probe ends, with the dictionary as it is then. *)
Inductive TryOutcome :=
| FellThrough (status : Status)
| EarlyReturn (status : Status)
| Raising (e : Exception) (status : Status).

Definition git_status_argv : list string := ["git"; "status"; "--porcelain"].
Definition git_upstream_argv : list string :=
  ["git"; "rev-parse"; "--abbrev-ref"; "--symbolic-full-name"; "@{u}"].
Definition git_log_argv : list string := ["git"; "log"; "@{u}.."].

Section Probe.

(** The invocation mechanism. *)
Variable subprocess_run : list string -> string -> RunResult.

(** [result = subprocess.run(...)] followed by the rest of the block. *)
Definition run_then (argv : list string) (cwd : string) (status : Status)
    (rest : Z -> string -> string -> TryOutcome) : TryOutcome :=
  match subprocess_run argv cwd with
  | Raised e => Raising e status
  | Completed returncode stdout stderr => rest returncode stdout stderr
  end.

(** The body of [try:]. *)
Definition try_block (repo_path : string) (status : Status) : TryOutcome :=
  run_then git_status_argv repo_path status (fun returncode stdout stderr =>
    if negb (returncode =? 0)%Z then
      EarlyReturn (set_error status (PyStr.strip stderr))
    else
      let status :=
        if PyStr.truthy (PyStr.strip stdout) then set_is_dirty status true
        else status in
      run_then git_upstream_argv repo_path status (fun returncode _ _ =>
        if (returncode =? 0)%Z then
          run_then git_log_argv repo_path status (fun _ stdout _ =>
            if PyStr.truthy (PyStr.strip stdout)
            then FellThrough (set_unpushed status true)
            else FellThrough status)
        else FellThrough status)).

Definition get_git_status (repo_path : string) : Status :=
  let status := mkStatus false false None in
  match try_block repo_path status with
  | FellThrough status => status
  | EarlyReturn status => status
  | Raising e status => set_error status (str e)   (* except Exception as e *)
  end.

End Probe.

(** ** The probe under interrupts *)

(** [subprocess.run] can also let through an exception that is not an
    instance of Exception: it re-raises a KeyboardInterrupt that arrives while
    it waits for git.  The handler [except Exception] does not catch those.
    [Full] is the probe over such an invocation mechanism; [get_git_status]
    above is the probe when every exception raised is an instance of
    Exception. *)
Module Full.

(** What a [raise] throws: an instance of class Exception, or an exception of
    a class outside it (KeyboardInterrupt, SystemExit, GeneratorExit), known
    here by the name of its class. *)
Inductive BaseException :=
| InstanceOfException (e : Exception)
| OutsideException (class_name : string).

(** What one [subprocess.run(argv, cwd=..., check=False)] does. *)
Inductive RunOutcome :=
| RunRaises (b : BaseException)
| RunCompletes (returncode : Z) (stdout stderr : string).

(** A result of the restricted mechanism, as a result of this one. *)
Definition of_run_result (r : RunResult) : RunOutcome :=
  match r with
  | Raised e => RunRaises (InstanceOfException e)
  | Completed returncode stdout stderr => RunCompletes returncode stdout stderr
  end.

(** How the [try] block ends, with the dictionary as it is then. *)
Inductive BlockEnd :=
| Falls (status : Status)
| ReturnsEarly (status : Status)
| Raises (b : BaseException) (status : Status).

(** What a call of the probe does: it returns the dictionary, or an
    exception comes out of it. *)
Inductive ProbeResult :=
| Returned (status : Status)
| Propagated (b : BaseException).

Section FullProbe.

Variable subprocess_run : list string -> string -> RunOutcome.

Definition run_then (argv : list string) (cwd : string) (status : Status)
    (rest : Z -> string -> string -> BlockEnd) : BlockEnd :=
  match subprocess_run argv cwd with
  | RunRaises b => Raises b status
  | RunCompletes returncode stdout stderr => rest returncode stdout stderr
  end.

(** The body of [try:]. *)
Definition try_block (repo_path : string) (status : Status) : BlockEnd :=
  run_then git_status_argv repo_path status (fun returncode stdout stderr =>
    if negb (returncode =? 0)%Z then
      ReturnsEarly (set_error status (PyStr.strip stderr))
    else
      let status :=
        if PyStr.truthy (PyStr.strip stdout) then set_is_dirty status true
        else status in
      run_then git_upstream_argv repo_path status (fun returncode _ _ =>
        if (returncode =? 0)%Z then
          run_then git_log_argv repo_path status (fun _ stdout _ =>
            if PyStr.truthy (PyStr.strip stdout)
            then Falls (set_unpushed status true)
            else Falls status)
        else Falls status)).

(** [except Exception as e] catches the instances of Exception; any other
    exception leaves the function. *)
Definition get_git_status (repo_path : string) : ProbeResult :=
  let status := mkStatus false false None in
  match try_block repo_path status with
  | Falls status => Returned status
  | ReturnsEarly status => Returned status
  | Raises (InstanceOfException e) status => Returned (set_error status (str e))
  | Raises (OutsideException class_name) status =>
      Propagated (OutsideException class_name)
  end.

(** A query that the probe runs raises [b]. *)
Inductive query_raises (repo_path : string) (b : BaseException) : Prop :=
| status_raises :
    subprocess_run git_status_argv repo_path = RunRaises b ->
    query_raises repo_path b
| upstream_raises out err :
    subprocess_run git_status_argv repo_path = RunCompletes 0 out err ->
    subprocess_run git_upstream_argv repo_path = RunRaises b ->
    query_raises repo_path b
| log_raises out err out' err' :
    subprocess_run git_status_argv repo_path = RunCompletes 0 out err ->
    subprocess_run git_upstream_argv repo_path = RunCompletes 0 out' err' ->
    subprocess_run git_log_argv repo_path = RunRaises b ->
    query_raises repo_path b.

End FullProbe.

End Full.

(** The three queries of the probe. *)
Definition probe_queries : list (list string) :=
  [git_status_argv; git_upstream_argv; git_log_argv].

(** ** The file system seen by [os.walk] *)

(** A node is what [os.walk] finds behind a name that [scandir] reports as a
    directory.  [Dir files subdirs] lists the non-directory names and the
    directory names with what is behind each; [Unlisted] is an entry the walk
    names in [dirs] but never yields: a symbolic link to a directory
    (followlinks is off), or a directory whose listing fails (the error is
    ignored, onerror being None). *)
#[warnings="-register-all"]
Inductive Node :=
| Dir (files : list string) (subdirs : list (string * Node))
| Unlisted.

(** A name that [scandir] can report: not empty and without separator. *)
Fixpoint no_sep (s : string) : bool :=
  match s with
  | EmptyString => true
  | String c s' => negb (Ascii.eqb c OsPath.sep) && no_sep s'
  end.

Definition valid_name (s : string) : bool :=
  PyStr.truthy s && no_sep s.

Definition in_list (x : string) (l : list string) : bool :=
  existsb (String.eqb x) l.

Fixpoint distinct (l : list string) : bool :=
  match l with
  | [] => true
  | x :: l' => negb (in_list x l') && distinct l'
  end.

(** In a directory the names of the sub-directories are valid and pairwise
    different, at every level. *)
Fixpoint well_formed (n : Node) : bool :=
  match n with
  | Unlisted => true
  | Dir _ subdirs =>
      forallb valid_name (map fst subdirs)
      && distinct (map fst subdirs)
      && forallb (fun e => well_formed (snd e)) subdirs
  end.

Section Walk.

Context {State : Type}.

(** The body of a loop [for current_root, dirs, files in os.walk(top)]: it
    reads the triple and the loop's variables, and gives back the list [dirs]
    as the body leaves it (it may edit it in place) and the variables. *)
Variable body : string -> list string -> list string -> State -> list string * State.

(** Top-down [os.walk]: yield the triple of [top], run the body, then walk
    [join(top, name)] for the names that the body left in [dirs]. *)
Fixpoint os_walk (top : string) (n : Node) (s : State) : State :=
  match n with
  | Unlisted => s
  | Dir files subdirs =>
      let '(dirs, s) := body top (map fst subdirs) files s in
      (fix walk_dirs (es : list (string * Node)) (s : State) : State :=
         match es with
         | [] => s
         | (name, child) :: es' =>
             walk_dirs es'
               (if in_list name dirs
                then os_walk (OsPath.join top name) child s
                else s)
         end) subdirs s
  end.

End Walk.

(** ** TreeClassifier: [scan_directory] *)

Definition CODE_EXTENSIONS : list string :=
  [".py"; ".js"; ".ts"; ".c"; ".cpp"; ".h"; ".hpp"; ".java";
   ".go"; ".rs"; ".rb"; ".php"; ".html"; ".css"; ".sh"; ".bat";
   ".json"; ".xml"; ".yml"; ".yaml"; ".md"].

(** [repo_info]: the dictionary with keys 'path' and 'status'. *)
Record RepoInfo := mkRepoInfo {
  path : string;
  status : Status
}.

(** [dirs.remove(x)]: drops the first occurrence. *)
Fixpoint list_remove (x : string) (l : list string) : list string :=
  match l with
  | [] => []
  | y :: l' => if String.eqb x y then l' else y :: list_remove x l'
  end.

Definition has_code (files : list string) : bool :=
  existsb (fun f => PyStr.endswith_any f CODE_EXTENSIONS) files.

Section Scan.

Variable subprocess_run : list string -> string -> RunResult.

(** The loop body of [scan_directory], on the pair
    (found_repos, uninitialized_dirs). *)
Definition scan_body (current_root : string) (dirs files : list string)
    (s : list RepoInfo * list string) : list string * (list RepoInfo * list string) :=
  let '(found_repos, uninitialized_dirs) := s in
  if in_list ".git" dirs then
    let dirs := list_remove ".git" dirs in
    let git_stat := get_git_status subprocess_run current_root in
    let repo_info := mkRepoInfo current_root git_stat in
    let found_repos := found_repos ++ [repo_info] in
    let dirs : list string := [] in                      (* dirs[:] = [] *)
    (dirs, (found_repos, uninitialized_dirs))
  else if has_code files then
    (dirs, (found_repos, uninitialized_dirs ++ [current_root]))
  else
    (dirs, (found_repos, uninitialized_dirs)).

(** [tree] is what the file system holds at [root_dir].  The flag [verbose]
    is not read by the function and the line it prints first is left out. *)
Definition scan_directory (root_dir : string) (tree : Node)
    : list RepoInfo * list string :=
  os_walk scan_body root_dir tree ([], []).

End Scan.

(** The paths of the repository records. *)
Definition repo_paths (found_repos : list RepoInfo) : list string :=
  map path found_repos.

(** The directories that the loop of [scan_directory] is handed: the top, and
    every sub-directory of a directory that it is handed and that holds no
    '.git' directory (such a directory has its [dirs] emptied).  [Unlisted]
    entries are never handed over. *)
Inductive visits : string -> Node -> string -> list string -> list (string * Node) -> Prop :=
| visits_top top files subdirs :
    visits top (Dir files subdirs) top files subdirs
| visits_sub top files subdirs name child p fs ds :
    in_list ".git" (map fst subdirs) = false ->
    In (name, child) subdirs ->
    visits (OsPath.join top name) child p fs ds ->
    visits top (Dir files subdirs) p fs ds.

(** ** Path segments, as the specification speaks of them *)

(** The segments of a path: the non-empty runs of characters between
    separators ("/a//b/" has the segments "a" and "b"). *)
Fixpoint segments (s : string) : list string :=
  match s with
  | EmptyString => []
  | String c s' =>
      if Ascii.eqb c OsPath.sep then segments s'
      else if OsPath.startswith_sep s' then String c EmptyString :: segments s'
      else match segments s' with
           | seg :: rest => String c seg :: rest
           | [] => [String c EmptyString]
           end
  end.

(** [p] is a strict path-segment prefix of [q] ([q] is a strict descendant of
    [p]): [q] is another path, it begins with [p], and the segments of [p] are
    the first segments of [q], so that [p] stops where a segment of [q]
    stops. *)
Definition strict_segment_prefix (p q : string) : Prop :=
  p <> q /\ PyStr.startswith q p = true
  /\ exists more, segments q = segments p ++ more.

(** Increasing order of strings, as [sort] leaves them. *)
Definition lex_sorted (l : list string) : Prop :=
  StronglySorted (fun a b => String.leb a b = true) l.

(** ** AncestryFilter: the filter of [print_report] *)

Module StringOrder <: TotalLeBool.
Definition t := string.
Definition leb := String.leb.
Theorem leb_total : forall a1 a2, is_true (leb a1 a2) \/ is_true (leb a2 a1).
Proof. exact String.leb_total. Qed.
End StringOrder.

Module StringSort := Sort StringOrder.

(** [uninit.sort()]: strings in increasing order, by character code. *)
Definition list_sort (l : list string) : list string := StringSort.sort l.

(** The test [d.startswith(os.path.join(parent, ''))]. *)
Definition is_under (parent d : string) : bool :=
  PyStr.startswith d (OsPath.join parent "").

(** One turn of [for d in uninit]: the inner loop sets [is_child] when some
    [parent] already kept passes the test. *)
Definition filter_step (filtered_uninit : list string) (d : string) : list string :=
  let is_child := existsb (fun parent => is_under parent d) filtered_uninit in
  if negb is_child then filtered_uninit ++ [d] else filtered_uninit.

Definition filtered_uninit (uninit : list string) : list string :=
  fold_left filter_step (list_sort uninit) [].

(** ** What the queries of the probe did *)

(** The short-status query failed: it raised, or it exited non-zero.  The
    text is the diagnostic that the probe captures, [str(e)] or the trimmed
    standard error. *)
Definition status_query_failure (r : RunResult) : option string :=
  match r with
  | Raised e => Some (str e)
  | Completed returncode _ stderr =>
      if (returncode =? 0)%Z then None else Some (PyStr.strip stderr)
  end.

(** A query that the probe runs raises [e]: the short-status query; or, after
    a short status with exit code 0, the upstream query; or, after both with
    exit code 0, the log query. *)
Inductive query_raises (run : list string -> string -> RunResult)
    (repo_path : string) (e : Exception) : Prop :=
| status_raises :
    run git_status_argv repo_path = Raised e ->
    query_raises run repo_path e
| upstream_raises out err :
    run git_status_argv repo_path = Completed 0 out err ->
    run git_upstream_argv repo_path = Raised e ->
    query_raises run repo_path e
| log_raises out err out' err' :
    run git_status_argv repo_path = Completed 0 out err ->
    run git_upstream_argv repo_path = Completed 0 out' err' ->
    run git_log_argv repo_path = Raised e ->
    query_raises run repo_path e.

(** ** The walk, unrolled *)

(** The loop over [dirs] that [os_walk] runs after the body, by name. *)
Fixpoint walk_children {State : Type}
    (body : string -> list string -> list string -> State -> list string * State)
    (top : string) (dirs : list string) (es : list (string * Node)) (s : State)
    : State :=
  match es with
  | [] => s
  | (name, child) :: es' =>
      walk_children body top dirs es'
        (if in_list name dirs
         then os_walk body (OsPath.join top name) child s
         else s)
  end.

(** The records that the scan of [n] at [top] appends to [found_repos]. *)
Fixpoint repos_of (run : list string -> string -> RunResult)
    (top : string) (n : Node) : list RepoInfo :=
  match n with
  | Unlisted => []
  | Dir _ subdirs =>
      if in_list ".git" (map fst subdirs)
      then [mkRepoInfo top (get_git_status run top)]
      else flat_map (fun e => repos_of run (OsPath.join top (fst e)) (snd e)) subdirs
  end.

(** The paths that the scan of [n] at [top] appends to
    [uninitialized_dirs]. *)
Fixpoint uninit_of (top : string) (n : Node) : list string :=
  match n with
  | Unlisted => []
  | Dir files subdirs =>
      if in_list ".git" (map fst subdirs) then []
      else (if has_code files then [top] else [])
           ++ flat_map (fun e => uninit_of (OsPath.join top (fst e)) (snd e)) subdirs
  end.

(** Where the walk from [top] records paths: at [top], or under a name of
    [top], at a segment boundary. *)
Definition below (top p : string) : Prop :=
  p = top
  \/ exists name rest,
       valid_name name = true
       /\ p = (OsPath.join top "" ++ name ++ rest)%string
       /\ (rest = ""%string \/ OsPath.startswith_sep rest = true).

(** ** The loop of the filter *)

(** No kept path passes the test against another kept path. *)
Definition unrelated (kept : list string) : Prop :=
  forall p q, In p kept -> In q kept -> p <> q -> is_under p q = false.

(** While the loop runs: the kept paths and the paths still to come are in
    increasing order, and every kept path sorts before every path to come. *)
Definition in_order (kept todo : list string) : Prop :=
  lex_sorted kept /\ lex_sorted todo
  /\ forall a x, In a kept -> In x todo -> String.leb a x = true.

(** ** ReportRenderer: [print_report] *)

(** [s * n] *)
Fixpoint str_repeat (s : string) (n : nat) : string :=
  match n with
  | O => EmptyString
  | S n' => (s ++ str_repeat s n')%string
  end.

(** [str(n)] for the length of a list. *)
Definition str_of_nat (n : nat) : string :=
  NilEmpty.string_of_uint (Nat.to_uint n).

(** The line drawn by [f"{'='*60}"]. *)
Definition rule : string := str_repeat "=" 60.

(** Truth value of [status['error']], which is None or a string. *)
Definition error_truthy (e : option string) : bool :=
  match e with
  | Some s => PyStr.truthy s
  | None => false
  end.

(** The list [status_str] that the loop builds for one record. *)
Definition status_str (status : Status) : list string :=
  if error_truthy (error status) then
    [("[ERROR: " ++ match error status with Some e => e | None => "" end ++ "]")%string]
  else
    (if is_dirty status then ["DIRTY (Uncommitted)"%string] else ["CLEAN"%string])
    ++ (if unpushed status then ["UNPUSHED COMMITS"%string] else []).

(** The value of [icon] when the line is printed. *)
Definition icon (status : Status) : string :=
  let icon := "[?]"%string in
  if error_truthy (error status) then "[!]"%string
  else if is_dirty status || unpushed status then "[*]"%string
  else "[OK]"%string.

(** The line printed for one record. *)
Definition repo_line (rel_path : string) (status : Status) : string :=
  (icon status ++ " " ++ rel_path ++ "  =>  "
   ++ String.concat ", " (status_str status))%string.

(** [repos.sort(key=lambda x: x['path'])]: a stable sort on the paths. *)
Fixpoint insert_by_path (r : RepoInfo) (l : list RepoInfo) : list RepoInfo :=
  match l with
  | [] => [r]
  | x :: l' =>
      if String.ltb (path x) (path r) then x :: insert_by_path r l'
      else r :: l
  end.

Definition sort_by_path (repos : list RepoInfo) : list RepoInfo :=
  fold_right insert_by_path [] repos.

Section Report.

(** [os.path.relpath(path, start)], which reads the current directory; it
    raises ValueError on an empty path, and whatever [os.getcwd] raises. *)
Variable relpath : string -> string -> Exception + string.

(** [for r in repos: ...], on the lines printed so far: the lines printed in
    the end, and the exception that stopped the loop, if any. *)
Fixpoint print_repos (root_dir : string) (repos : list RepoInfo)
    (out : list string) : list string * option Exception :=
  match repos with
  | [] => (out, None)
  | r :: repos' =>
      match relpath (path r) root_dir with
      | inl e => (out, Some e)
      | inr rel_path =>
          print_repos root_dir repos' (out ++ [repo_line rel_path (status r)])
      end
  end.

(** [for d in filtered_uninit: ...] *)
Fixpoint print_uninit (root_dir : string) (dirs : list string)
    (out : list string) : list string * option Exception :=
  match dirs with
  | [] => (out, None)
  | d :: dirs' =>
      match relpath d root_dir with
      | inl e => (out, Some e)
      | inr rel_path =>
          print_uninit root_dir dirs' (out ++ [("[?] " ++ rel_path)%string])
      end
  end.

(** [print_report]: what it prints, one entry for each call of [print], and
    the exception that it lets through, if any. *)
Definition print_report (repos : list RepoInfo) (uninit : list string)
    (root_dir : string) : list string * option Exception :=
  let out :=
    [rule;
     ("GIT REPOSITORIES FOUND: " ++ str_of_nat (List.length repos))%string;
     rule] in
  let repos := sort_by_path repos in
  match print_repos root_dir repos out with
  | (out, Some e) => (out, Some e)
  | (out, None) =>
      match uninit with
      | [] => (out, None)
      | _ :: _ =>
          let out := out ++
            [String "010"%char rule;
             ("UNINITIALIZED CODE DIRECTORIES (Potential Projects): "
              ++ str_of_nat (List.length uninit))%string;
             "(Showing top-level non-nested matches to reduce noise)"%string;
             rule] in
          print_uninit root_dir (filtered_uninit uninit) out
      end
  end.

End Report.

(** The relative path that [relpath] gives, where it gives one. *)
Definition rel_of (relpath : string -> string -> Exception + string)
    (root_dir p : string) : string :=
  match relpath p root_dir with
  | inr rel_path => rel_path
  | inl _ => EmptyString
  end.

(** Records in increasing order of their paths. *)
Definition sorted_by_path (l : list RepoInfo) : Prop :=
  StronglySorted (fun a b => String.leb (path a) (path b) = true) l.

(** No path of the list passes the test against a later entry of the list
    (an equal one included): the loop keeps such a list as it is. *)
Definition settled (kept : list string) : Prop :=
  forall l1 d l2, kept = l1 ++ d :: l2 ->
    existsb (fun parent => is_under parent d) l1 = false.

(** ** Sample inputs *)

Definition argv_eqb (a b : list string) : bool :=
  if list_eq_dec string_dec a b then true else false.

(** git is not installed: every invocation raises. *)
Definition run_no_git (argv : list string) (cwd : string) : RunResult :=
  Raised (mkException "[Errno 2] No such file or directory: 'git'").

(** Not a work tree: the short status exits with 128. *)
Definition run_not_a_repo (argv : list string) (cwd : string) : RunResult :=
  Completed 128 "" "fatal: not a git repository
".

(** A modified work tree on a branch without upstream. *)
Definition run_no_upstream (argv : list string) (cwd : string) : RunResult :=
  if argv_eqb argv git_status_argv then Completed 0 " M main.py
" ""
  else Completed 128 "" "fatal: no upstream configured for branch 'main'
".

(** A clean work tree with an upstream, where the log query exits with 128
    and prints nothing on its standard output. *)
Definition run_log_fails (argv : list string) (cwd : string) : RunResult :=
  if argv_eqb argv git_status_argv then Completed 0 "" ""
  else if argv_eqb argv git_upstream_argv then Completed 0 "origin/main
" ""
  else Completed 128 "" "fatal: bad revision '@{u}..'
".

(** A clean work tree with an upstream, where running the log query raises. *)
Definition run_log_raises (argv : list string) (cwd : string) : RunResult :=
  if argv_eqb argv git_status_argv then Completed 0 "" ""
  else if argv_eqb argv git_upstream_argv then Completed 0 "origin/main
" ""
  else Raised (mkException "[Errno 12] Cannot allocate memory").

(** A work space: a repository, a nested repository under it that the walk
    never reaches, a plain directory with code, a link, and a directory
    without code that holds a repository. *)
Definition sample_tree : Node :=
  Dir ["notes.txt"]
    [("app", Dir ["main.py"]
               [(".git", Dir ["HEAD"] []);
                ("vendor", Dir [] [(".git", Dir ["HEAD"] [])])]);
     ("lab", Dir ["script.js"]
               [("src", Dir ["lib.cpp"] []);
                ("data", Unlisted)]);
     ("group", Dir []
               [("nested_repo", Dir ["lib.cpp"] [(".git", Dir ["HEAD"] [])])])].

(** The short status exits with 1 and prints nothing. *)
Definition run_silent_failure (argv : list string) (cwd : string) : RunResult :=
  Completed 1 "" "".

(** A modified work tree where running the upstream query raises. *)
Definition run_upstream_raises (argv : list string) (cwd : string) : RunResult :=
  if argv_eqb argv git_status_argv then Completed 0 " M main.py
" ""
  else Raised (mkException "[Errno 24] Too many open files").

(** A clean work tree one commit ahead of its upstream. *)
Definition run_ahead (argv : list string) (cwd : string) : RunResult :=
  if argv_eqb argv git_status_argv then Completed 0 "" ""
  else if argv_eqb argv git_upstream_argv then Completed 0 "origin/main
" ""
  else Completed 0 "commit 3f2a9c1
" "".

(** As [run_no_upstream], but with a log query that would print a commit. *)
Definition run_no_upstream_log (argv : list string) (cwd : string) : RunResult :=
  if argv_eqb argv git_status_argv then Completed 0 " M main.py
" ""
  else if argv_eqb argv git_upstream_argv
       then Completed 128 "" "fatal: no upstream configured for branch 'main'
"
       else Completed 0 "commit 3f2a9c1
" "".

(** The user presses Ctrl-C while the short status runs. *)
Definition run_interrupted (argv : list string) (cwd : string) : Full.RunOutcome :=
  Full.RunRaises (Full.OutsideException "KeyboardInterrupt").


(** A [relpath] for the samples: right for a path at or under [start], written
    as the walk writes it; ValueError stands for every other case. *)
Definition relpath_sample (p start : string) : Exception + string :=
  if String.eqb p start then inr "."%string
  else if PyStr.startswith p (OsPath.join start "")
       then inr (substring (String.length (OsPath.join start ""))
                           (String.length p) p)
       else inl (mkException "no path specified").

(** Candidates as the walk may collect them, before the filter. *)
Definition sample_uninit : list string :=
  ["/a/bb"; "/a/b/c"; "/a/b"; "proj/src"; "proj/"].

(** * Properties *)

(** ** The embedding on small inputs *)

Example join_cases :
  OsPath.join "a" "b" = "a/b" /\ OsPath.join "a/" "b" = "a/b"
  /\ OsPath.join "" "b" = "b" /\ OsPath.join "a" "/b" = "/b"
  /\ OsPath.join "a" "" = "a/" /\ OsPath.join "a/" "" = "a/"
  /\ OsPath.join "" "" = "".
Proof. repeat split. Qed.

Example strip_cases :
  PyStr.strip "  M main.py
" = "M main.py" /\ PyStr.strip "
 " = "" /\ PyStr.strip "a  b" = "a  b".
Proof. repeat split. Qed.

(** The suffix match is case-sensitive and needs no stem. *)
Example has_code_cases :
  has_code ["script.js"] = true /\ has_code ["notes.txt"; "lib.cpp"] = true
  /\ has_code ["MAIN.PY"] = false /\ has_code [".md"] = true
  /\ has_code ["py"; "Makefile"] = false /\ has_code [] = false.
Proof. repeat split. Qed.

Example segments_cases :
  segments "/a//b/" = ["a"; "b"] /\ segments "proj/" = ["proj"]
  /\ segments "/" = [] /\ segments "/a/bb" = ["a"; "bb"].
Proof. repeat split. Qed.

Example filtered_uninit_sample :
  filtered_uninit sample_uninit = ["/a/b"; "/a/bb"; "proj/"].
Proof. reflexivity. Qed.

Example scan_directory_sample :
  scan_directory run_no_upstream "/work" sample_tree
  = ([mkRepoInfo "/work/app" (mkStatus true false None);
      mkRepoInfo "/work/group/nested_repo" (mkStatus true false None)],
     ["/work/lab"; "/work/lab/src"]).
Proof. reflexivity. Qed.

(** ** The probe *)

Ltac probe_run :=
  unfold get_git_status, try_block, run_then;
  repeat match goal with
         | H : ?run ?a ?p = _ |- context [?run ?a ?p] => rewrite H; cbn
         end.

(** C8.  When the short-status query exits non-zero or its invocation fails,
    the probe returns a record whose error is the captured diagnostic text and
    whose is_dirty and unpushed are false. *)
Theorem status_query_failure_recorded run repo_path diagnostic :
  status_query_failure (run git_status_argv repo_path) = Some diagnostic ->
  get_git_status run repo_path = mkStatus false false (Some diagnostic).
Proof.
  unfold status_query_failure, get_git_status, try_block, run_then.
  destruct (run git_status_argv repo_path) as [e | rc out err].
  - intros [= <-]. reflexivity.
  - destruct (rc =? 0)%Z; [discriminate |].
    intros [= <-]. reflexivity.
Qed.

Lemma status_query_failure_recorded_witness :
  get_git_status run_not_a_repo "/work/x"
    = mkStatus false false (Some "fatal: not a git repository")
  /\ get_git_status run_no_git "/work/x"
    = mkStatus false false (Some "[Errno 2] No such file or directory: 'git'").
Proof.
  split.
  - apply (status_query_failure_recorded run_not_a_repo "/work/x"). reflexivity.
  - apply (status_query_failure_recorded run_no_git "/work/x"). reflexivity.
Defined.

(** C7.  When the upstream-resolution query exits non-zero, the probe returns
    unpushed = false and leaves the error unset. *)
Theorem no_upstream_is_not_an_error run repo_path out err rc out' err' :
  run git_status_argv repo_path = Completed 0 out err ->
  run git_upstream_argv repo_path = Completed rc out' err' ->
  rc <> 0%Z ->
  get_git_status run repo_path
    = mkStatus (PyStr.truthy (PyStr.strip out)) false None.
Proof.
  intros Hs Hu Hrc. probe_run.
  apply Z.eqb_neq in Hrc. rewrite Hrc.
  destruct (PyStr.truthy (PyStr.strip out)); reflexivity.
Qed.

Lemma no_upstream_is_not_an_error_witness :
  get_git_status run_no_upstream "/work/x" = mkStatus true false None.
Proof.
  apply (no_upstream_is_not_an_error run_no_upstream "/work/x"
           " M main.py
" "" 128 "" "fatal: no upstream configured for branch 'main'
"); [reflexivity | reflexivity | discriminate].
Defined.

(** When every exception raised is an instance of Exception: the one raised
    by any of the three queries that the probe runs ends up, as text, in the
    error of the record. *)
Theorem query_exception_folded run repo_path e :
  query_raises run repo_path e ->
  error (get_git_status run repo_path) = Some (str e).
Proof.
  intros [Hs | out err Hs Hu | out err out' err' Hs Hu Hl]; probe_run.
  - reflexivity.
  - destruct (PyStr.truthy (PyStr.strip out)); reflexivity.
  - destruct (PyStr.truthy (PyStr.strip out)); reflexivity.
Qed.

Lemma query_exception_folded_witness :
  error (get_git_status run_log_raises "/work/x")
    = Some "[Errno 12] Cannot allocate memory".
Proof.
  apply (query_exception_folded run_log_raises "/work/x"
           (mkException "[Errno 12] Cannot allocate memory")).
  apply log_raises with (out := "") (err := "") (out' := "origin/main
") (err' := ""); reflexivity.
Defined.

(** C3, as stated, fails: with an upstream resolved and a log query that
    exits with 128, the error of the record stays unset. *)
Lemma log_failure_not_recorded :
  run_log_fails git_upstream_argv "/work/x" = Completed 0 "origin/main
" ""
  /\ run_log_fails git_log_argv "/work/x" = Completed 128 "" "fatal: bad revision '@{u}..'
"
  /\ error (get_git_status run_log_fails "/work/x") = None.
Proof. repeat split. Qed.

(** C3, amended.  Once the upstream is resolved, the exit code of the log
    query is not looked at: the error stays unset, and unpushed tells whether
    the query printed anything but white space. *)
Theorem log_exit_code_ignored run repo_path out err out' err' rc out'' err'' :
  run git_status_argv repo_path = Completed 0 out err ->
  run git_upstream_argv repo_path = Completed 0 out' err' ->
  run git_log_argv repo_path = Completed rc out'' err'' ->
  get_git_status run repo_path
    = mkStatus (PyStr.truthy (PyStr.strip out))
               (PyStr.truthy (PyStr.strip out'')) None.
Proof.
  intros Hs Hu Hl. probe_run.
  destruct (PyStr.truthy (PyStr.strip out)),
           (PyStr.truthy (PyStr.strip out'')); reflexivity.
Qed.

Lemma log_exit_code_ignored_witness :
  get_git_status run_log_fails "/work/x" = mkStatus false false None.
Proof.
  apply (log_exit_code_ignored run_log_fails "/work/x" "" "" "origin/main
" "" 128 "" "fatal: bad revision '@{u}..'
"); reflexivity.
Defined.

(** ** Strings: concatenation, prefixes, order *)

Local Open Scope string_scope.

Lemma str_app_nil_r (s : string) : s ++ "" = s.
Proof. induction s as [| c s IH]; cbn; [reflexivity | now rewrite IH]. Qed.

Lemma str_app_assoc (a b c : string) : (a ++ b) ++ c = a ++ (b ++ c).
Proof. induction a as [| x a IH]; cbn; [reflexivity | now rewrite IH]. Qed.

Lemma str_app_inv_head (p a b : string) : p ++ a = p ++ b -> a = b.
Proof.
  induction p as [| x p IH]; cbn; intros H; [exact H |].
  injection H as H. auto.
Qed.

Lemma str_app_length (a b : string) :
  String.length (a ++ b) = String.length a + String.length b.
Proof. induction a as [| x a IH]; cbn; [reflexivity | now rewrite IH]. Qed.

Lemma str_app_eq_self (a b : string) : a ++ b = a -> b = "".
Proof.
  intros H. apply (str_app_inv_head a). now rewrite str_app_nil_r.
Qed.

Lemma startswith_iff (s p : string) :
  PyStr.startswith s p = true <-> exists r, s = p ++ r.
Proof.
  unfold PyStr.startswith. revert s.
  induction p as [| c p IH]; intros s.
  - split; [intros _; now exists s | intros _; now destruct s].
  - destruct s as [| d s]; cbn.
    + split; [discriminate | intros [r H]; discriminate].
    + destruct (ascii_dec c d) as [-> | Hne].
      * split.
        -- intros H. apply IH in H as [r ->]. now exists r.
        -- intros [r H]. apply IH. exists r. now injection H.
      * split; [discriminate | intros [r H]; injection H as H1 _; congruence].
Qed.

Lemma startswith_app (p a b : string) :
  PyStr.startswith (p ++ a) (p ++ b) = PyStr.startswith a b.
Proof.
  unfold PyStr.startswith.
  induction p as [| c p IH]; cbn; [reflexivity |].
  destruct (ascii_dec c c); [exact IH | congruence].
Qed.

Lemma startswith_refl_app (p r : string) : PyStr.startswith (p ++ r) p = true.
Proof. apply startswith_iff. now exists r. Qed.

Lemma ascii_compare_refl (c : ascii) : Ascii.compare c c = Eq.
Proof. unfold Ascii.compare. apply N.compare_refl. Qed.

Lemma ascii_compare_lt_trans (a b c : ascii) :
  Ascii.compare a b = Lt -> Ascii.compare b c = Lt -> Ascii.compare a c = Lt.
Proof.
  unfold Ascii.compare. rewrite !N.compare_lt_iff. apply N.lt_trans.
Qed.

Lemma str_compare_refl (s : string) : String.compare s s = Eq.
Proof.
  induction s as [| c s IH]; cbn; [reflexivity |].
  now rewrite ascii_compare_refl.
Qed.

Lemma str_compare_lt_trans (a b c : string) :
  String.compare a b = Lt -> String.compare b c = Lt -> String.compare a c = Lt.
Proof.
  revert b c. induction a as [| x a IH]; intros [| y b] [| z c]; cbn;
    try discriminate; try reflexivity.
  destruct (Ascii.compare x y) eqn:Hxy; try discriminate.
  - apply Ascii.compare_eq_iff in Hxy. subst y.
    destruct (Ascii.compare x z); try discriminate; [apply IH | reflexivity].
  - destruct (Ascii.compare y z) eqn:Hyz; try discriminate.
    + apply Ascii.compare_eq_iff in Hyz. subst z. now rewrite Hxy.
    + now rewrite (ascii_compare_lt_trans _ _ _ Hxy Hyz).
Qed.

Lemma str_leb_refl (s : string) : String.leb s s = true.
Proof. unfold String.leb. now rewrite str_compare_refl. Qed.

Lemma str_leb_trans (a b c : string) :
  String.leb a b = true -> String.leb b c = true -> String.leb a c = true.
Proof.
  unfold String.leb.
  destruct (String.compare a b) eqn:Hab; try discriminate;
    destruct (String.compare b c) eqn:Hbc; try discriminate; intros _ _.
  - apply String.compare_eq_iff in Hab, Hbc. subst. now rewrite str_compare_refl.
  - apply String.compare_eq_iff in Hab. subst. now rewrite Hbc.
  - apply String.compare_eq_iff in Hbc. subst. now rewrite Hab.
  - now rewrite (str_compare_lt_trans _ _ _ Hab Hbc).
Qed.

(** A string sorts strictly before each of its proper extensions. *)
Lemma proper_extension_sorts_after (p r : string) :
  r <> "" -> String.leb (p ++ r) p = false.
Proof.
  intros Hr. unfold String.leb.
  induction p as [| c p IH]; cbn.
  - destruct r; [congruence | reflexivity].
  - now rewrite ascii_compare_refl.
Qed.

Lemma substring_whole (p : string) : substring 0 (String.length p) p = p.
Proof. induction p as [| c p IH]; cbn; [reflexivity | now rewrite IH]. Qed.

Lemma substring_skip (a b : string) (n : nat) :
  substring (String.length a) n (a ++ b) = substring 0 n b.
Proof. induction a as [| c a IH]; cbn; [reflexivity | exact IH]. Qed.

(** A name made of a stem and an extension ends with the extension. *)
Lemma endswith_app (stem ext : string) : PyStr.endswith (stem ++ ext) ext = true.
Proof.
  unfold PyStr.endswith. rewrite str_app_length. apply andb_true_intro. split.
  - apply Nat.leb_le. lia.
  - replace (String.length stem + String.length ext - String.length ext)
      with (String.length stem) by lia.
    rewrite substring_skip, substring_whole. apply String.eqb_refl.
Qed.

Lemma has_code_intro (files : list string) (stem ext : string) :
  In (stem ++ ext) files -> In ext CODE_EXTENSIONS -> has_code files = true.
Proof.
  intros Hf He. unfold has_code. apply existsb_exists.
  exists (stem ++ ext). split; [exact Hf |].
  unfold PyStr.endswith_any. apply existsb_exists.
  exists ext. split; [exact He | apply endswith_app].
Qed.

(** ** [os.path.join] *)

Lemma endswith_sep_cons c s :
  s <> "" -> OsPath.endswith_sep (String c s) = OsPath.endswith_sep s.
Proof. destruct s; [congruence | reflexivity]. Qed.

Lemma endswith_sep_app (a b : string) :
  b <> "" -> OsPath.endswith_sep (a ++ b) = OsPath.endswith_sep b.
Proof.
  intros Hb. induction a as [| c a IH]; [reflexivity |].
  change (String c a ++ b) with (String c (a ++ b)).
  rewrite endswith_sep_cons; [exact IH |].
  destruct a; [exact Hb | discriminate].
Qed.

Lemma no_sep_endswith_sep (s : string) :
  no_sep s = true -> OsPath.endswith_sep s = false.
Proof.
  induction s as [| c s IH]; [reflexivity |].
  cbn [no_sep]. intros H. apply andb_prop in H as [Hc Hs].
  destruct s as [| d s].
  - cbn. now apply negb_true_iff in Hc.
  - rewrite endswith_sep_cons by discriminate. auto.
Qed.

Lemma no_sep_startswith_sep (s : string) :
  no_sep s = true -> OsPath.startswith_sep s = false.
Proof.
  destruct s as [| c s]; [reflexivity |].
  cbn. intros H. apply andb_prop in H as [Hc _]. now apply negb_true_iff in Hc.
Qed.

(** [join(a, '')] is [a] made to end in a separator, unless [a] is empty. *)
Lemma join_empty (a : string) :
  OsPath.join a "" =
  if (match a with EmptyString => true | _ => false end) || OsPath.endswith_sep a
  then a else a ++ "/".
Proof.
  unfold OsPath.join. cbn [OsPath.startswith_sep].
  destruct (_ || _); [apply str_app_nil_r | reflexivity].
Qed.

Lemma join_name (a name : string) :
  valid_name name = true -> OsPath.join a name = OsPath.join a "" ++ name.
Proof.
  unfold valid_name. intros H. apply andb_prop in H as [_ Hn].
  unfold OsPath.join. rewrite (no_sep_startswith_sep _ Hn). cbn [OsPath.startswith_sep].
  destruct (_ || _).
  - now rewrite str_app_nil_r.
  - now rewrite str_app_assoc.
Qed.

Lemma join_empty_extends (a : string) : exists t, OsPath.join a "" = a ++ t.
Proof.
  rewrite join_empty. destruct (_ || _).
  - exists "". now rewrite str_app_nil_r.
  - now exists "/".
Qed.

(** ** Segments *)

Lemma segments_first c s :
  Ascii.eqb c OsPath.sep = false ->
  exists seg rest, segments (String c s) = (String c seg :: rest)%list.
Proof.
  intros Hc. cbn [segments]. rewrite Hc.
  destruct (OsPath.startswith_sep s); [now eexists _, _ |].
  destruct (segments s); now eexists _, _.
Qed.

(** Cutting a path where a segment stops cuts its list of segments. *)
Lemma segments_app_boundary (p r : string) :
  p = "" \/ OsPath.endswith_sep p = true \/ OsPath.startswith_sep r = true ->
  segments (p ++ r) = (segments p ++ segments r)%list.
Proof.
  induction p as [| c p IH]; intros Hb; [reflexivity |].
  change (String c p ++ r) with (String c (p ++ r)).
  cbn [segments]. destruct (Ascii.eqb c OsPath.sep) eqn:Hc.
  - apply IH. destruct p as [| d p]; [now left | right].
    rewrite endswith_sep_cons in Hb by discriminate.
    destruct Hb as [Hb | Hb]; [discriminate | exact Hb].
  - destruct p as [| d p].
    + destruct Hb as [Hb | [Hb | Hb]]; [discriminate | cbn in Hb; congruence |].
      cbn. now rewrite Hb.
    + assert (Hb' : String d p = "" \/ OsPath.endswith_sep (String d p) = true
                    \/ OsPath.startswith_sep r = true).
      { right. rewrite endswith_sep_cons in Hb by discriminate.
        destruct Hb as [Hb | Hb]; [discriminate | exact Hb]. }
      specialize (IH Hb'). rewrite IH.
      change (OsPath.startswith_sep (String d p ++ r))
        with (OsPath.startswith_sep (String d p)).
      destruct (OsPath.startswith_sep (String d p)) eqn:Hd; [reflexivity |].
      destruct (segments_first d p Hd) as (seg & rest & ->). reflexivity.
Qed.

(** Cutting a path inside a segment does not. *)
Lemma segments_app_inside (p r : string) (more : list string) :
  p <> "" -> OsPath.endswith_sep p = false ->
  r <> "" -> OsPath.startswith_sep r = false ->
  segments (p ++ r) <> (segments p ++ more)%list.
Proof.
  intros Hp Hpe Hr Hrs. revert more Hp Hpe.
  induction p as [| c p IH]; intros more Hp Hpe; [congruence |].
  change (String c p ++ r) with (String c (p ++ r)).
  cbn [segments]. destruct (Ascii.eqb c OsPath.sep) eqn:Hc.
  - destruct p as [| d p]; [cbn in Hpe; congruence |].
    rewrite endswith_sep_cons in Hpe by discriminate.
    apply IH; [discriminate | exact Hpe].
  - destruct p as [| d p].
    + destruct r as [| x r]; [congruence |].
      cbn [append]. cbn in Hrs.
      cbn [OsPath.startswith_sep]. rewrite Hrs.
      destruct (segments_first x r Hrs) as (seg & rest & ->).
      cbn. intros H. discriminate H.
    + rewrite endswith_sep_cons in Hpe by discriminate.
      assert (Hnp : String d p <> "") by discriminate.
      specialize (IH more).
      change (OsPath.startswith_sep (String d p ++ r))
        with (OsPath.startswith_sep (String d p)).
      destruct (OsPath.startswith_sep (String d p)) eqn:Hd.
      * intros [= H]. now apply (IH Hnp Hpe).
      * change (String d p ++ r) with (String d (p ++ r)) in *.
        destruct (segments_first d (p ++ r) Hd) as (seg' & rest' & E').
        destruct (segments_first d p Hd) as (seg & rest & E).
        rewrite E', E in *. cbn. intros [= H1 H2]. subst seg'.
        apply (IH Hnp Hpe). cbn. now rewrite H2.
Qed.

(** The test of the filter is the strict path-segment prefix of the
    specification, on two different paths. *)
Lemma is_under_iff_strict_segment_prefix (p q : string) :
  p <> q -> (is_under p q = true <-> strict_segment_prefix p q).
Proof.
  intros Hne. unfold is_under, strict_segment_prefix. split.
  - intros H. apply startswith_iff in H as [r Hq].
    rewrite join_empty in Hq.
    destruct p as [| c p].
    + cbn in Hq. subst q. repeat split; [exact Hne | now destruct r | now exists (segments r)].
    + cbn [orb] in Hq. destruct (OsPath.endswith_sep (String c p)) eqn:He.
      * subst q. repeat split; [exact Hne | apply startswith_refl_app |].
        exists (segments r). apply segments_app_boundary. auto.
      * rewrite str_app_assoc in Hq. subst q.
        repeat split; [exact Hne | apply startswith_refl_app |].
        eexists. apply segments_app_boundary. right; right. reflexivity.
  - intros (_ & Hpre & more & Hseg).
    apply startswith_iff in Hpre as [r Hq]. subst q.
    assert (Hr : r <> "") by (intros ->; now rewrite str_app_nil_r in Hne).
    apply startswith_iff. rewrite join_empty.
    destruct p as [| c p]; [now exists r |].
    cbn [orb]. destruct (OsPath.endswith_sep (String c p)) eqn:He; [now exists r |].
    destruct (OsPath.startswith_sep r) eqn:Hs.
    + destruct r as [| x r]; [discriminate |]. cbn in Hs.
      apply Ascii.eqb_eq in Hs. subst x. exists r. now rewrite str_app_assoc.
    + exfalso. now apply (segments_app_inside (String c p) r more).
Qed.

(** ** The loop of the filter *)

Local Open Scope list_scope.

Lemma filter_step_kept kept d x : In x kept -> In x (filter_step kept d).
Proof.
  unfold filter_step. destruct (negb _); [| auto].
  intros H. apply in_or_app. now left.
Qed.

Lemma filter_step_origin kept d x :
  In x (filter_step kept d) -> In x kept \/ x = d.
Proof.
  unfold filter_step. destruct (negb _); [| auto].
  intros H. apply in_app_or in H as [H | [H | []]]; auto.
Qed.

Lemma filter_loop_kept todo : forall kept x,
  In x kept -> In x (fold_left filter_step todo kept).
Proof.
  induction todo as [| d todo IH]; intros kept x H; cbn; [exact H |].
  apply IH. now apply filter_step_kept.
Qed.

Lemma filter_loop_origin todo : forall kept x,
  In x (fold_left filter_step todo kept) -> In x kept \/ In x todo.
Proof.
  induction todo as [| d todo IH]; intros kept x H; cbn in *; [now left |].
  apply IH in H as [H | H]; [| now right; right].
  apply filter_step_origin in H as [H | H]; [now left | right; left; congruence].
Qed.

(** A path that the loop meets is kept, or some kept path passes the test
    against it. *)
Lemma filter_loop_represented todo : forall kept d,
  In d todo ->
  In d (fold_left filter_step todo kept)
  \/ exists p, In p (fold_left filter_step todo kept) /\ is_under p d = true.
Proof.
  induction todo as [| x todo IH]; intros kept d H; [destruct H |].
  cbn [fold_left]. destruct H as [-> | H]; [| now apply IH].
  unfold filter_step at 2 4.
  destruct (existsb (fun parent => is_under parent d) kept) eqn:E; cbn [negb].
  - right. apply existsb_exists in E as (p & Hp & Hu).
    exists p. split; [now apply filter_loop_kept | exact Hu].
  - left. apply filter_loop_kept. apply in_or_app. right. now left.
Qed.

Lemma lex_sorted_snoc kept d :
  lex_sorted kept -> (forall a, In a kept -> String.leb a d = true) ->
  lex_sorted (kept ++ [d]).
Proof.
  unfold lex_sorted. induction 1 as [| a l Hl IH Ha]; intros Hd; cbn.
  - constructor; constructor.
  - constructor.
    + apply IH. intros b Hb. apply Hd. now right.
    + apply Forall_app. split; [exact Ha |].
      constructor; [| constructor]. apply Hd. now left.
Qed.

Lemma in_order_step kept d todo :
  in_order kept (d :: todo) -> in_order (filter_step kept d) todo.
Proof.
  unfold in_order, lex_sorted. intros (Hk & Ht & Hkt).
  apply StronglySorted_inv in Ht as [Ht Hd].
  rewrite Forall_forall in Hd.
  unfold filter_step. destruct (negb _).
  - repeat split; [| exact Ht |].
    + apply lex_sorted_snoc; [exact Hk |]. intros a Ha. apply Hkt; [exact Ha | now left].
    + intros a x Ha Hx. apply in_app_or in Ha as [Ha | [<- | []]].
      * apply Hkt; [exact Ha | now right].
      * now apply Hd.
  - repeat split; [exact Hk | exact Ht |].
    intros a x Ha Hx. apply Hkt; [exact Ha | now right].
Qed.

Lemma filter_loop_sorted todo : forall kept,
  in_order kept todo -> lex_sorted (fold_left filter_step todo kept).
Proof.
  induction todo as [| d todo IH]; intros kept H; cbn.
  - apply H.
  - apply IH. now apply in_order_step.
Qed.

(** A path that passes the test against another one sorts strictly after
    it. *)
Lemma is_under_sorts_after p q :
  p <> q -> is_under p q = true -> String.leb q p = false.
Proof.
  intros Hne H. apply startswith_iff in H as [r Hq].
  destruct (join_empty_extends p) as [t Ht]. rewrite Ht, str_app_assoc in Hq.
  subst q. apply proper_extension_sorts_after.
  intros E. apply Hne. now rewrite E, str_app_nil_r.
Qed.

Lemma unrelated_step kept d todo :
  in_order kept (d :: todo) -> unrelated kept -> unrelated (filter_step kept d).
Proof.
  intros (_ & _ & Hkt) Hu. unfold filter_step.
  destruct (existsb (fun parent => is_under parent d) kept) eqn:E; cbn [negb];
    [exact Hu |].
  intros p q Hp Hq Hne.
  apply in_app_or in Hp as [Hp | [<- | []]];
    apply in_app_or in Hq as [Hq | [<- | []]].
  - now apply Hu.
  - destruct (is_under p d) eqn:Hpd; [| reflexivity].
    assert (existsb (fun parent => is_under parent d) kept = true)
      by (apply existsb_exists; now exists p).
    congruence.
  - destruct (is_under d q) eqn:Hdq; [| reflexivity].
    apply is_under_sorts_after in Hdq; [| exact Hne].
    rewrite Hkt in Hdq; [discriminate | exact Hq | now left].
  - congruence.
Qed.

Lemma filter_loop_unrelated todo : forall kept,
  in_order kept todo -> unrelated kept ->
  unrelated (fold_left filter_step todo kept).
Proof.
  induction todo as [| d todo IH]; intros kept Ho Hu; cbn; [exact Hu |].
  apply IH; [now apply in_order_step | now apply (unrelated_step kept d todo)].
Qed.

(** What [sort] gives. *)
Lemma list_sort_sorted l : lex_sorted (list_sort l).
Proof.
  unfold lex_sorted, list_sort.
  apply (StringSort.StronglySorted_sort l).
  intros a b c. apply str_leb_trans.
Qed.

Lemma list_sort_In l x : In x (list_sort l) <-> In x l.
Proof.
  unfold list_sort. split; intros H.
  - eapply Permutation_in; [apply Permutation_sym, StringSort.Permuted_sort | exact H].
  - eapply Permutation_in; [apply StringSort.Permuted_sort | exact H].
Qed.

(** The increasing arrangement of a list is unique, so that [list_sort]
    stands for any sorting procedure. *)
Lemma lex_sorted_unique : forall l1 l2,
  lex_sorted l1 -> lex_sorted l2 -> Permutation l1 l2 -> l1 = l2.
Proof.
  unfold lex_sorted.
  induction l1 as [| a l1 IH]; intros l2 H1 H2 HP.
  - apply Permutation_nil in HP. now subst.
  - destruct l2 as [| b l2];
      [apply Permutation_sym, Permutation_nil in HP; discriminate |].
    apply StronglySorted_inv in H1 as [H1 Ha].
    apply StronglySorted_inv in H2 as [H2 Hb].
    rewrite Forall_forall in Ha, Hb.
    assert (E : a = b).
    { destruct (string_dec a b) as [E | Hne]; [exact E |].
      apply String.leb_antisym.
      - assert (Hin : In b (a :: l1))
          by (eapply Permutation_in; [apply Permutation_sym, HP | now left]).
        destruct Hin as [Hin | Hin]; [congruence | now apply Ha].
      - assert (Hin : In a (b :: l2))
          by (eapply Permutation_in; [apply HP | now left]).
        destruct Hin as [Hin | Hin]; [congruence | now apply Hb]. }
    subst b. f_equal. apply IH; auto.
    now apply Permutation_cons_inv in HP.
Qed.

Lemma in_order_start l : in_order [] (list_sort l).
Proof.
  repeat split; [constructor | apply list_sort_sorted | intros a x []].
Qed.

Lemma filtered_uninit_unrelated l : unrelated (filtered_uninit l).
Proof.
  apply filter_loop_unrelated; [apply in_order_start |].
  intros p q [].
Qed.

(** The loop splits its input into the kept paths and the dropped ones, and
    each dropped one passed the test against a kept path. *)
Lemma filter_loop_picks todo : forall kept,
  exists dropped,
    Permutation (kept ++ todo) (fold_left filter_step todo kept ++ dropped)
    /\ forall d, In d dropped ->
         exists p, In p (fold_left filter_step todo kept) /\ is_under p d = true.
Proof.
  induction todo as [| d todo IH]; intros kept; cbn [fold_left].
  - exists []. split; [apply Permutation_refl | intros d []].
  - unfold filter_step at 2 4.
    destruct (existsb (fun parent => is_under parent d) kept) eqn:E; cbn [negb].
    + destruct (IH kept) as (dropped & HP & Hd). exists (d :: dropped). split.
      * eapply Permutation_trans; [apply Permutation_sym, Permutation_middle |].
        eapply Permutation_trans; [| apply Permutation_middle].
        now constructor.
      * intros x [<- | Hx]; [| now apply Hd].
        apply existsb_exists in E as (p & Hp & Hu).
        exists p. split; [now apply filter_loop_kept | exact Hu].
    + destruct (IH (kept ++ [d])) as (dropped & HP & Hd). exists dropped.
      split; [now rewrite <- app_assoc in HP | exact Hd].
Qed.

(** ** The ancestry filter *)

(** C4.  After the filter, of two different surviving paths neither is a
    strict path-segment prefix of the other. *)
Theorem survivors_not_nested (uninit : list string) (p q : string) :
  In p (filtered_uninit uninit) -> In q (filtered_uninit uninit) -> p <> q ->
  ~ strict_segment_prefix p q /\ ~ strict_segment_prefix q p.
Proof.
  intros Hp Hq Hne.
  pose proof (filtered_uninit_unrelated uninit) as Hu.
  split; intros H.
  - apply is_under_iff_strict_segment_prefix in H; [| exact Hne].
    rewrite (Hu p q Hp Hq Hne) in H. discriminate.
  - apply is_under_iff_strict_segment_prefix in H; [| congruence].
    rewrite (Hu q p Hq Hp) in H; [discriminate | congruence].
Qed.

Lemma survivors_not_nested_witness :
  ~ strict_segment_prefix "/a/b" "proj/" /\ ~ strict_segment_prefix "proj/" "/a/b".
Proof.
  apply (survivors_not_nested sample_uninit "/a/b" "proj/").
  - vm_compute. auto.
  - vm_compute. auto.
  - discriminate.
Defined.

(** C10.  The output of the filter is in increasing order and is the input
    without some dropped entries; each dropped entry is represented in the
    output by an equal path or by a strict path-segment prefix of it, and every
    input path that is absent from the output is a strict path-segment
    descendant of a path that is in it. *)
Theorem filter_keeps_topmost (uninit : list string) :
  lex_sorted (filtered_uninit uninit)
  /\ incl (filtered_uninit uninit) uninit
  /\ (exists dropped,
        Permutation uninit (filtered_uninit uninit ++ dropped)
        /\ forall d, In d dropped ->
             exists p, In p (filtered_uninit uninit)
                       /\ (p = d \/ strict_segment_prefix p d))
  /\ forall d, In d uninit -> ~ In d (filtered_uninit uninit) ->
       exists p, In p (filtered_uninit uninit) /\ strict_segment_prefix p d.
Proof.
  unfold filtered_uninit. split; [| split; [| split]].
  - apply filter_loop_sorted, in_order_start.
  - intros x H. apply filter_loop_origin in H as [[] | H].
    now apply list_sort_In.
  - destruct (filter_loop_picks (list_sort uninit) []) as (dropped & HP & Hd).
    exists dropped. cbn [app] in HP. split.
    + eapply Permutation_trans; [apply StringSort.Permuted_sort | exact HP].
    + intros d Hin. destruct (Hd d Hin) as (p & Hp & Hu).
      exists p. split; [exact Hp |].
      destruct (string_dec p d) as [E | Hne]; [now left | right].
      now apply is_under_iff_strict_segment_prefix.
  - intros d Hd Hout.
    apply list_sort_In in Hd.
    destruct (filter_loop_represented _ [] d Hd) as [H | (p & Hp & Hu)];
      [contradiction |].
    exists p. split; [exact Hp |].
    apply is_under_iff_strict_segment_prefix; [| exact Hu].
    intros ->. contradiction.
Qed.

Lemma filter_keeps_topmost_witness :
  exists p, In p (filtered_uninit sample_uninit)
            /\ strict_segment_prefix p "proj/src".
Proof.
  apply (proj2 (proj2 (proj2 (filter_keeps_topmost sample_uninit)))).
  - vm_compute. auto 6.
  - vm_compute. intros [H | [H | [H | []]]]; discriminate H.
Defined.

Local Open Scope string_scope.

Lemma str_app_eq_app (a b c d : string) :
  a ++ b = c ++ d ->
  (exists e, a = c ++ e /\ d = e ++ b) \/ (exists e, c = a ++ e /\ b = e ++ d).
Proof.
  revert c. induction a as [| x a IH]; intros c H.
  - right. exists c. auto.
  - destruct c as [| y c].
    + left. exists (String x a). auto.
    + cbn in H. injection H as -> H.
      destruct (IH c H) as [(e & -> & ->) | (e & -> & ->)];
        [left | right]; exists e; auto.
Qed.

Lemma no_sep_app (a b : string) : no_sep (a ++ b) = no_sep a && no_sep b.
Proof.
  induction a as [| x a IH]; cbn; [reflexivity |].
  now rewrite IH, andb_assoc.
Qed.

Lemma join_empty_endswith_sep (q : string) :
  q <> "" -> OsPath.endswith_sep (OsPath.join q "") = true.
Proof.
  intros Hq. rewrite join_empty.
  destruct q as [| c q]; [congruence |]. cbn [orb].
  destruct (OsPath.endswith_sep (String c q)) eqn:E; [exact E |].
  now rewrite endswith_sep_app.
Qed.

(** A path that only continues the last segment of [p] is not under [p]. *)
Lemma same_segment_not_under (p t : string) :
  p <> "" -> OsPath.endswith_sep p = false -> OsPath.startswith_sep t = false ->
  is_under p (p ++ t) = false.
Proof.
  intros Hp He Ht. unfold is_under. rewrite join_empty.
  destruct p as [| c p]; [congruence |]. cbn [orb]. rewrite He.
  rewrite startswith_app. destruct t as [| x t]; [reflexivity |].
  unfold PyStr.startswith. cbn [String.prefix].
  destruct (ascii_dec "/" x) as [<- | _]; [discriminate Ht | reflexivity].
Qed.

(** Whatever is over a path that continues the last segment of [p] is over
    [p] too. *)
Lemma over_sibling_over (p t q : string) :
  p <> "" -> OsPath.endswith_sep p = false -> no_sep t = true ->
  is_under q (p ++ t) = true -> q <> p /\ is_under q p = true.
Proof.
  intros Hp He Ht H.
  assert (Hpp : q = p -> False).
  { intros ->. rewrite same_segment_not_under in H; auto using no_sep_startswith_sep.
    discriminate. }
  split; [exact Hpp |].
  apply startswith_iff in H as [r H]. apply startswith_iff.
  symmetry in H. apply str_app_eq_app in H as [(e & Hj & Hr) | (e & Hj & Hr)].
  - destruct e as [| x e]; [exists ""; now rewrite Hj, !str_app_nil_r |].
    exfalso.
    destruct q as [| y q]; [destruct p; [congruence | discriminate Hj] |].
    assert (Hs : OsPath.endswith_sep (OsPath.join (String y q) "") = true)
      by (apply join_empty_endswith_sep; discriminate).
    rewrite Hj, endswith_sep_app in Hs by discriminate.
    rewrite Hr, no_sep_app in Ht. apply andb_prop in Ht as [Ht _].
    apply no_sep_endswith_sep in Ht. congruence.
  - now exists e.
Qed.

(** C6.  The test of the filter matches full path segments: between two
    different paths it holds exactly when the first is a strict path-segment
    prefix of the second; a path that only continues the last segment of [p]
    (as /a/bb continues /a/b) is not under [p]; and it survives the filter
    whenever [p] does. *)
Theorem test_matches_full_segments :
  (forall parent d, parent <> d ->
     (is_under parent d = true <-> strict_segment_prefix parent d))
  /\ (forall p t, p <> "" -> OsPath.endswith_sep p = false ->
        OsPath.startswith_sep t = false -> is_under p (p ++ t) = false)
  /\ (forall uninit p t,
        p <> "" -> OsPath.endswith_sep p = false -> no_sep t = true ->
        In p (filtered_uninit uninit) -> In (p ++ t) uninit ->
        In (p ++ t) (filtered_uninit uninit)).
Proof.
  split; [| split].
  - apply is_under_iff_strict_segment_prefix.
  - apply same_segment_not_under.
  - intros uninit p t Hp He Ht Hin Hpt.
    apply list_sort_In in Hpt.
    destruct (filter_loop_represented _ [] _ Hpt) as [H | (q & Hq & Hu)];
      [exact H | exfalso].
    destruct (over_sibling_over p t q Hp He Ht Hu) as [Hne Hqp].
    rewrite (filtered_uninit_unrelated uninit q p Hq Hin Hne) in Hqp.
    discriminate.
Qed.

Lemma test_matches_full_segments_witness :
  is_under "/a/b" "/a/bb" = false
  /\ In "/a/bb" (filtered_uninit sample_uninit)
  /\ ~ strict_segment_prefix "/a/b" "/a/bb".
Proof.
  destruct test_matches_full_segments as (Hiff & Hseg & Hkeep).
  split; [| split].
  - apply (Hseg "/a/b" "b"); [discriminate | reflexivity | reflexivity].
  - apply (Hkeep sample_uninit "/a/b" "b");
      [discriminate | reflexivity | reflexivity | vm_compute; auto | vm_compute; auto].
  - intros H. apply (Hiff "/a/b" "/a/bb") in H; [| discriminate].
    vm_compute in H. discriminate H.
Defined.

(** ** The walk *)

Local Open Scope list_scope.

(** Induction on a tree, with the property for every sub-directory. *)
Lemma Node_induction (P : Node -> Prop) :
  P Unlisted ->
  (forall files subdirs,
      Forall (fun e => P (snd e)) subdirs -> P (Dir files subdirs)) ->
  forall n, P n.
Proof.
  intros HU HD.
  fix IH 1. intros [files subdirs |]; [| exact HU].
  apply HD. induction subdirs as [| [name child] es IHes]; constructor.
  - cbn. apply IH.
  - exact IHes.
Qed.

Lemma os_walk_Dir {State : Type}
    (body : string -> list string -> list string -> State -> list string * State)
    top files subdirs s :
  os_walk body top (Dir files subdirs) s =
  walk_children body top (fst (body top (map fst subdirs) files s)) subdirs
                (snd (body top (map fst subdirs) files s)).
Proof.
  cbn [os_walk]. destruct (body top (map fst subdirs) files s) as [dirs s'].
  cbn [fst snd]. revert s'.
  induction subdirs as [| [name child] es IH]; intros s0; [reflexivity |].
  cbn [walk_children]. apply IH.
Qed.

(** With [dirs] emptied, no sub-directory is walked. *)
Lemma walk_children_pruned {State : Type}
    (body : string -> list string -> list string -> State -> list string * State)
    top es s :
  walk_children body top [] es s = s.
Proof.
  revert s. induction es as [| [name child] es IH]; intros s; [reflexivity |].
  cbn [walk_children in_list existsb]. apply IH.
Qed.

Section ScanFacts.

Variable run : list string -> string -> RunResult.

(** The walk appends to the two lists what [repos_of] and [uninit_of] list. *)
Lemma scan_walk_appends : forall n top r u,
  os_walk (scan_body run) top n (r, u)
  = (r ++ repos_of run top n, u ++ uninit_of top n).
Proof.
  induction n as [| files subdirs IH] using Node_induction; intros top r u.
  - cbn. now rewrite !app_nil_r.
  - rewrite os_walk_Dir. cbn [repos_of uninit_of scan_body].
    destruct (in_list ".git" (map fst subdirs)) eqn:Hgit.
    + cbn [fst snd]. now rewrite walk_children_pruned, app_nil_r.
    + assert (Hall : forall e, In e subdirs ->
                       in_list (fst e) (map fst subdirs) = true).
      { intros e He. apply existsb_exists. exists (fst e).
        split; [now apply in_map | apply String.eqb_refl]. }
      assert (Hw : forall dirs es r u,
                 (forall e, In e es -> in_list (fst e) dirs = true) ->
                 Forall (fun e => forall top r u,
                   os_walk (scan_body run) top (snd e) (r, u)
                   = (r ++ repos_of run top (snd e), u ++ uninit_of top (snd e))) es ->
                 walk_children (scan_body run) top dirs es (r, u)
                 = (r ++ flat_map (fun e => repos_of run (OsPath.join top (fst e)) (snd e)) es,
                    u ++ flat_map (fun e => uninit_of (OsPath.join top (fst e)) (snd e)) es)).
      { clear. intros dirs es.
        induction es as [| [name child] es IHes]; intros r u Hin HF.
        - cbn. now rewrite !app_nil_r.
        - cbn [walk_children flat_map].
          pose proof (Hin (name, child) (or_introl eq_refl)) as Hn.
          cbn [fst] in Hn. rewrite Hn.
          inversion HF as [| ? ? Hhd Htl]; subst. cbn [fst snd] in *.
          rewrite Hhd. rewrite IHes; [| intros e He; apply Hin; now right | exact Htl].
          now rewrite !app_assoc. }
      destruct (has_code files); cbn [fst snd]; rewrite Hw; auto.
      now rewrite <- app_assoc.
Qed.

Lemma scan_directory_lists root_dir tree :
  scan_directory run root_dir tree
  = (repos_of run root_dir tree, uninit_of root_dir tree).
Proof. unfold scan_directory. now rewrite scan_walk_appends. Qed.

End ScanFacts.

(** ** Paths of the walk *)

Local Open Scope string_scope.

(** A name followed by nothing or by a separator is read off the string. *)
Lemma name_split (a b r1 r2 : string) :
  no_sep a = true -> no_sep b = true ->
  r1 = "" \/ OsPath.startswith_sep r1 = true ->
  r2 = "" \/ OsPath.startswith_sep r2 = true ->
  a ++ r1 = b ++ r2 -> a = b.
Proof.
  revert b. induction a as [| x a IH]; intros [| y b] Ha Hb H1 H2 E;
    cbn in Ha, Hb, E.
  - reflexivity.
  - exfalso. apply andb_prop in Hb as [Hy _]. apply negb_true_iff in Hy.
    destruct H1 as [-> | H1]; [discriminate E |].
    subst r1. cbn in H1. congruence.
  - exfalso. apply andb_prop in Ha as [Hx _]. apply negb_true_iff in Hx.
    destruct H2 as [-> | H2]; [discriminate E |].
    subst r2. cbn in H2. congruence.
  - injection E as -> E. f_equal.
    apply andb_prop in Ha as [_ Ha]. apply andb_prop in Hb as [_ Hb].
    now apply IH.
Qed.

Lemma valid_name_inv name :
  valid_name name = true -> name <> "" /\ no_sep name = true.
Proof.
  unfold valid_name. intros H. apply andb_prop in H as [Ht Hn].
  split; [now destruct name | exact Hn].
Qed.

(** What is recorded from a sub-directory [name] of [top] is [name] under
    [top], followed by nothing or by a separator. *)
Lemma below_child (top name p : string) :
  valid_name name = true -> below (OsPath.join top name) p ->
  exists rest, p = OsPath.join top "" ++ name ++ rest
               /\ (rest = "" \/ OsPath.startswith_sep rest = true).
Proof.
  intros Hv Hb. pose proof (valid_name_inv _ Hv) as [Hne Hns].
  rewrite (join_name _ _ Hv) in Hb.
  destruct Hb as [-> | (name' & rest' & Hv' & -> & _)].
  - exists "". rewrite str_app_nil_r. auto.
  - exists ("/" ++ name' ++ rest'). split; [| now right].
    rewrite join_empty.
    replace (OsPath.endswith_sep (OsPath.join top "" ++ name)) with false.
    + destruct (OsPath.join top "" ++ name) eqn:E.
      * destruct (OsPath.join top ""), name; cbn in E; congruence.
      * cbn [orb]. rewrite <- E. now rewrite !str_app_assoc.
    + symmetry. rewrite endswith_sep_app by exact Hne.
      now apply no_sep_endswith_sep.
Qed.

Lemma below_child_not_top (top name p : string) :
  valid_name name = true -> below (OsPath.join top name) p -> p <> top.
Proof.
  intros Hv Hb E. pose proof (valid_name_inv _ Hv) as [Hne _].
  destruct (below_child _ _ _ Hv Hb) as (rest & Hp & _).
  destruct (join_empty_extends top) as [t Ht]. rewrite Ht, E in Hp.
  apply (f_equal String.length) in Hp. rewrite !str_app_length in Hp.
  destruct name; [congruence | cbn in Hp; lia].
Qed.

(** Paths recorded from two sub-directories are equal, or one under the
    other, only when the two names are one. *)
Lemma children_apart (top n1 n2 p q : string) :
  valid_name n1 = true -> valid_name n2 = true ->
  below (OsPath.join top n1) p -> below (OsPath.join top n2) q ->
  p = q \/ is_under p q = true -> n1 = n2.
Proof.
  intros Hv1 Hv2 Hp Hq H.
  pose proof (valid_name_inv _ Hv1) as [Hne1 Hns1].
  pose proof (valid_name_inv _ Hv2) as [Hne2 Hns2].
  destruct (below_child _ _ _ Hv1 Hp) as (r1 & -> & Hr1).
  destruct (below_child _ _ _ Hv2 Hq) as (r2 & -> & Hr2).
  destruct H as [E | H].
  - apply str_app_inv_head in E. now apply (name_split n1 n2 r1 r2).
  - apply startswith_iff in H as [r E].
    set (X := OsPath.join top "" ++ n1 ++ r1) in E.
    assert (HX : X <> "").
    { unfold X. destruct (OsPath.join top ""), n1; cbn; congruence. }
    assert (exists r', OsPath.join X "" ++ r = OsPath.join top "" ++ n1 ++ r'
                       /\ OsPath.startswith_sep r' = true) as (r' & E' & Hr').
    { rewrite join_empty. destruct X as [| c X'] eqn:EX; [congruence |].
      cbn [orb]. destruct (OsPath.endswith_sep (String c X')) eqn:Hend.
      - exists (r1 ++ r). rewrite <- EX. unfold X. rewrite !str_app_assoc.
        split; [reflexivity |].
        destruct Hr1 as [-> | Hr1]; [| now destruct r1].
        exfalso. rewrite <- EX in Hend. unfold X in Hend.
        rewrite str_app_nil_r, endswith_sep_app in Hend by exact Hne1.
        rewrite no_sep_endswith_sep in Hend by exact Hns1. discriminate.
      - exists (r1 ++ "/" ++ r). rewrite <- EX. unfold X. rewrite !str_app_assoc.
        split; [reflexivity |].
        destruct Hr1 as [-> | Hr1]; [reflexivity | now destruct r1]. }
    rewrite E' in E. apply str_app_inv_head in E.
    symmetry. apply (name_split n2 n1 r2 r'); auto.
Qed.

Local Open Scope list_scope.

Lemma in_list_In x l : in_list x l = true <-> In x l.
Proof.
  unfold in_list. rewrite existsb_exists. split.
  - intros (y & Hy & E). apply String.eqb_eq in E. now subst.
  - intros H. exists x. split; [exact H | apply String.eqb_refl].
Qed.

Lemma distinct_NoDup l : distinct l = true -> NoDup l.
Proof.
  induction l as [| x l IH]; cbn; intros H; constructor.
  - apply andb_prop in H as [H _]. apply negb_true_iff in H.
    intros Hin. apply in_list_In in Hin. congruence.
  - apply IH. now apply andb_prop in H as [_ H].
Qed.

(** A name stands for one sub-directory. *)
Lemma same_name_same_entry (es : list (string * Node)) e1 e2 :
  distinct (map fst es) = true -> In e1 es -> In e2 es ->
  fst e1 = fst e2 -> e1 = e2.
Proof.
  intros Hd. apply distinct_NoDup in Hd.
  induction es as [| e es IH]; intros H1 H2 E; [destruct H1 |].
  cbn in Hd. inversion Hd as [| ? ? Hnotin Hnd]; subst.
  destruct H1 as [-> | H1], H2 as [-> | H2].
  - reflexivity.
  - exfalso. apply Hnotin. rewrite E. now apply in_map.
  - exfalso. apply Hnotin. rewrite <- E. now apply in_map.
  - now apply IH.
Qed.

Lemma well_formed_Dir files subdirs :
  well_formed (Dir files subdirs) = true ->
  distinct (map fst subdirs) = true
  /\ forall e, In e subdirs -> valid_name (fst e) = true /\ well_formed (snd e) = true.
Proof.
  cbn [well_formed]. intros H.
  apply andb_prop in H as [H Hw]. apply andb_prop in H as [Hv Hd].
  split; [exact Hd |]. intros e He. split.
  - rewrite forallb_forall in Hv. apply Hv. now apply in_map.
  - rewrite forallb_forall in Hw. now apply Hw.
Qed.

Lemma repo_paths_flat_map {A} (f : A -> list RepoInfo) (l : list A) :
  repo_paths (flat_map f l) = flat_map (fun e => repo_paths (f e)) l.
Proof.
  unfold repo_paths. induction l as [| e l IH]; cbn; [reflexivity |].
  now rewrite map_app, IH.
Qed.

Lemma NoDup_flat_map {A} (f : A -> list string) (l : list A) :
  NoDup l ->
  (forall e, In e l -> NoDup (f e)) ->
  (forall e1 e2 x, In e1 l -> In e2 l -> In x (f e1) -> In x (f e2) -> e1 = e2) ->
  NoDup (flat_map f l).
Proof.
  induction 1 as [| e l Hnotin Hnd IH]; intros Hf Hsep; cbn; [constructor |].
  apply NoDup_app.
  - apply Hf. now left.
  - apply IH.
    + intros e' He'. apply Hf. now right.
    + intros e1 e2 x H1 H2. apply Hsep; now right.
  - intros x Hx Hx'. apply in_flat_map in Hx' as (e' & He' & Hxe').
    apply Hnotin. rewrite (Hsep e e' x); auto; [now left | now right].
Qed.

(** ** The two collections *)

Section Collections.

Variable run : list string -> string -> RunResult.

(** Every recorded path lies at the top of the walk or under one of its
    names. *)
Lemma recorded_below : forall n top p,
  well_formed n = true ->
  In p (repo_paths (repos_of run top n)) \/ In p (uninit_of top n) ->
  below top p.
Proof.
  induction n as [| files subdirs IH] using Node_induction; intros top p Hwf H.
  - cbn in H. tauto.
  - apply well_formed_Dir in Hwf as [_ Hsub].
    rewrite Forall_forall in IH.
    cbn [repos_of uninit_of] in H.
    destruct (in_list ".git" (map fst subdirs)).
    + destruct H as [[<- | []] | []]. now left.
    + assert (Hchild : forall e, In e subdirs ->
                below (OsPath.join top (fst e)) p -> below top p).
      { intros e He Hb. destruct (Hsub e He) as [Hv _].
        destruct (below_child _ _ _ Hv Hb) as (rest & -> & Hr).
        right. now exists (fst e), rest. }
      destruct H as [H | H].
      * rewrite repo_paths_flat_map in H.
        apply in_flat_map in H as (e & He & H).
        apply (Hchild e He). apply (IH e He); [apply (Hsub e He) | now left].
      * apply in_app_or in H as [H | H].
        -- destruct (has_code files); [| destruct H].
           destruct H as [<- | []]. now left.
        -- apply in_flat_map in H as (e & He & H).
           apply (Hchild e He). apply (IH e He); [apply (Hsub e He) | now right].
Qed.

(** The walk records a repository path once. *)
Lemma repo_paths_NoDup : forall n top,
  well_formed n = true -> NoDup (repo_paths (repos_of run top n)).
Proof.
  induction n as [| files subdirs IH] using Node_induction; intros top Hwf.
  - constructor.
  - pose proof (well_formed_Dir _ _ Hwf) as [Hd Hsub].
    rewrite Forall_forall in IH. cbn [repos_of].
    destruct (in_list ".git" (map fst subdirs)).
    + cbn. constructor; [intros [] | constructor].
    + rewrite repo_paths_flat_map. apply NoDup_flat_map.
      * apply distinct_NoDup in Hd. now apply NoDup_map_inv in Hd.
      * intros e He. apply (IH e He). apply (Hsub e He).
      * intros e1 e2 x H1 H2 Hx1 Hx2.
        apply (same_name_same_entry subdirs); auto.
        apply (children_apart top (fst e1) (fst e2) x x);
          [apply (Hsub e1 H1) | apply (Hsub e2 H2) | | | now left].
        -- apply (recorded_below (snd e1)); [apply (Hsub e1 H1) | now left].
        -- apply (recorded_below (snd e2)); [apply (Hsub e2 H2) | now left].
Qed.

(** No repository path passes the filter's test against another one. *)
Lemma repo_paths_unrelated : forall n top p q,
  well_formed n = true ->
  In p (repo_paths (repos_of run top n)) ->
  In q (repo_paths (repos_of run top n)) ->
  p <> q -> is_under p q = false.
Proof.
  induction n as [| files subdirs IH] using Node_induction;
    intros top p q Hwf Hp Hq Hne.
  - destruct Hp.
  - pose proof (well_formed_Dir _ _ Hwf) as [Hd Hsub].
    rewrite Forall_forall in IH. cbn [repos_of] in Hp, Hq.
    destruct (in_list ".git" (map fst subdirs)).
    + destruct Hp as [<- | []], Hq as [<- | []]. congruence.
    + rewrite repo_paths_flat_map in Hp, Hq.
      apply in_flat_map in Hp as (e1 & He1 & Hp).
      apply in_flat_map in Hq as (e2 & He2 & Hq).
      destruct (is_under p q) eqn:Hu; [exfalso | reflexivity].
      assert (E : e1 = e2).
      { apply (same_name_same_entry subdirs); auto.
        apply (children_apart top (fst e1) (fst e2) p q);
          [apply (Hsub e1 He1) | apply (Hsub e2 He2) | | | now right].
        - apply (recorded_below (snd e1)); [apply (Hsub e1 He1) | now left].
        - apply (recorded_below (snd e2)); [apply (Hsub e2 He2) | now left]. }
      subst e2.
      rewrite (IH e1 He1 (OsPath.join top (fst e1)) p q) in Hu;
        [discriminate | apply (Hsub e1 He1) | exact Hp | exact Hq | exact Hne].
Qed.

(** No path is recorded both as a repository and as uninitialized. *)
Lemma repos_uninit_apart : forall n top p,
  well_formed n = true ->
  In p (repo_paths (repos_of run top n)) -> In p (uninit_of top n) -> False.
Proof.
  induction n as [| files subdirs IH] using Node_induction;
    intros top p Hwf Hp Hq.
  - destruct Hp.
  - pose proof (well_formed_Dir _ _ Hwf) as [Hd Hsub].
    rewrite Forall_forall in IH. cbn [repos_of uninit_of] in Hp, Hq.
    destruct (in_list ".git" (map fst subdirs)); [destruct Hq |].
    rewrite repo_paths_flat_map in Hp.
    apply in_flat_map in Hp as (e1 & He1 & Hp).
    assert (Hb1 : below (OsPath.join top (fst e1)) p).
    { apply (recorded_below (snd e1)); [apply (Hsub e1 He1) | now left]. }
    apply in_app_or in Hq as [Hq | Hq].
    + destruct (has_code files); [| destruct Hq].
      destruct Hq as [<- | []].
      apply (below_child_not_top top (fst e1) top); [apply (Hsub e1 He1) | exact Hb1 | reflexivity].
    + apply in_flat_map in Hq as (e2 & He2 & Hq).
      assert (E : e1 = e2).
      { apply (same_name_same_entry subdirs); auto.
        apply (children_apart top (fst e1) (fst e2) p p);
          [apply (Hsub e1 He1) | apply (Hsub e2 He2) | exact Hb1 | | now left].
        apply (recorded_below (snd e2)); [apply (Hsub e2 He2) | now right]. }
      subst e2. apply (IH e1 He1 (OsPath.join top (fst e1)) p);
        [apply (Hsub e1 He1) | exact Hp | exact Hq].
Qed.

(** What the scan of a sub-directory records is recorded by the scan of a
    directory without '.git'. *)
Lemma child_records_kept top files subdirs name child :
  in_list ".git" (map fst subdirs) = false ->
  In (name, child) subdirs ->
  incl (repos_of run (OsPath.join top name) child) (repos_of run top (Dir files subdirs))
  /\ incl (uninit_of (OsPath.join top name) child) (uninit_of top (Dir files subdirs)).
Proof.
  intros Hgit He. cbn [repos_of uninit_of]. rewrite Hgit. split; intros x Hx.
  - apply in_flat_map. now exists (name, child).
  - apply in_or_app. right. apply in_flat_map. now exists (name, child).
Qed.

(** What is recorded as uninitialized was handed to the loop, without '.git'
    and with code. *)
Lemma uninit_visited : forall n top p,
  In p (uninit_of top n) ->
  exists files subdirs,
    visits top n p files subdirs
    /\ in_list ".git" (map fst subdirs) = false /\ has_code files = true.
Proof.
  induction n as [| files subdirs IH] using Node_induction; intros top p H.
  - destruct H.
  - rewrite Forall_forall in IH. cbn [uninit_of] in H.
    destruct (in_list ".git" (map fst subdirs)) eqn:Hgit; [destruct H |].
    apply in_app_or in H as [H | H].
    + destruct (has_code files) eqn:Hc; [| destruct H].
      destruct H as [<- | []]. exists files, subdirs.
      repeat split; [constructor | exact Hgit | exact Hc].
    + apply in_flat_map in H as ([name child] & He & H). cbn [fst snd] in H.
      destruct (IH _ He _ _ H) as (fs & ds & Hv & Hg & Hc).
      exists fs, ds. repeat split; [| exact Hg | exact Hc].
      eapply visits_sub; [exact Hgit | exact He | exact Hv].
Qed.

(** What is recorded as a repository was handed to the loop, with '.git'. *)
Lemma repo_visited : forall n top r,
  In r (repos_of run top n) ->
  exists files subdirs,
    visits top n (path r) files subdirs
    /\ in_list ".git" (map fst subdirs) = true.
Proof.
  induction n as [| files subdirs IH] using Node_induction; intros top r H.
  - destruct H.
  - rewrite Forall_forall in IH. cbn [repos_of] in H.
    destruct (in_list ".git" (map fst subdirs)) eqn:Hgit.
    + destruct H as [<- | []]. exists files, subdirs.
      split; [constructor | exact Hgit].
    + apply in_flat_map in H as ([name child] & He & H). cbn [fst snd] in H.
      destruct (IH _ He _ _ H) as (fs & ds & Hv & Hg).
      exists fs, ds. split; [| exact Hg].
      eapply visits_sub; [exact Hgit | exact He | exact Hv].
Qed.

Lemma visits_records_kept top tree p files subdirs :
  visits top tree p files subdirs ->
  incl (repos_of run p (Dir files subdirs)) (repos_of run top tree)
  /\ incl (uninit_of p (Dir files subdirs)) (uninit_of top tree).
Proof.
  induction 1 as [top files subdirs
                 | top files subdirs name child p fs ds Hgit He Hv [IHr IHu]].
  - split; apply incl_refl.
  - destruct (child_records_kept top files subdirs name child Hgit He) as [Hr Hu].
    split; eapply incl_tran; eauto.
Qed.

End Collections.

Lemma visits_into top tree p files subdirs name files' subdirs' :
  visits top tree p files subdirs ->
  in_list ".git" (map fst subdirs) = false ->
  In (name, Dir files' subdirs') subdirs ->
  visits top tree (OsPath.join p name) files' subdirs'.
Proof.
  induction 1 as [top files subdirs
                 | top files subdirs name0 child p fs ds Hgit He Hv IH];
    intros Hg Hin.
  - eapply visits_sub; [exact Hg | exact Hin | constructor].
  - eapply visits_sub; [exact Hgit | exact He | now apply IH].
Qed.

(** ** The scan *)

(** C1.  No two repository records of a scan overlap: their paths are
    pairwise different, and none is a strict path-segment prefix (an
    ancestor) of another. *)
Theorem repositories_do_not_overlap run root_dir tree :
  well_formed tree = true ->
  NoDup (repo_paths (fst (scan_directory run root_dir tree)))
  /\ forall r1 r2,
       In r1 (fst (scan_directory run root_dir tree)) ->
       In r2 (fst (scan_directory run root_dir tree)) ->
       path r1 <> path r2 ->
       ~ strict_segment_prefix (path r1) (path r2)
       /\ ~ strict_segment_prefix (path r2) (path r1).
Proof.
  intros Hwf. rewrite scan_directory_lists. cbn [fst]. split.
  - now apply repo_paths_NoDup.
  - intros r1 r2 H1 H2 Hne.
    apply (in_map path) in H1, H2. fold (repo_paths (repos_of run root_dir tree)) in H1, H2.
    split; intros H.
    + apply is_under_iff_strict_segment_prefix in H; [| exact Hne].
      rewrite (repo_paths_unrelated run tree root_dir _ _ Hwf H1 H2 Hne) in H.
      discriminate.
    + apply is_under_iff_strict_segment_prefix in H; [| congruence].
      rewrite (repo_paths_unrelated run tree root_dir _ _ Hwf H2 H1) in H;
        [discriminate | congruence].
Qed.

Lemma repositories_do_not_overlap_witness :
  ~ strict_segment_prefix "/work/app" "/work/group/nested_repo"
  /\ ~ strict_segment_prefix "/work/group/nested_repo" "/work/app".
Proof.
  apply (proj2 (repositories_do_not_overlap run_no_upstream "/work" sample_tree
                  eq_refl)
           (mkRepoInfo "/work/app" (mkStatus true false None))
           (mkRepoInfo "/work/group/nested_repo" (mkStatus true false None))).
  - vm_compute. auto.
  - vm_compute. auto.
  - discriminate.
Defined.

(** C2.  No path is in both collections of a scan. *)
Theorem collections_disjoint run root_dir tree p :
  well_formed tree = true ->
  In p (repo_paths (fst (scan_directory run root_dir tree))) ->
  ~ In p (snd (scan_directory run root_dir tree)).
Proof.
  intros Hwf. rewrite scan_directory_lists. cbn [fst snd].
  intros Hr Hu. exact (repos_uninit_apart run tree root_dir p Hwf Hr Hu).
Qed.

Lemma collections_disjoint_witness :
  ~ In "/work/app" (snd (scan_directory run_no_upstream "/work" sample_tree)).
Proof.
  apply (collections_disjoint run_no_upstream "/work" sample_tree "/work/app").
  - reflexivity.
  - vm_compute. auto.
Defined.

(** C9.  A directory that the walk is handed, that holds no '.git'
    directory and that holds a file whose name is a stem followed by a
    recognized extension, is recorded as uninitialized; the walk goes on into its sub-directories: each of them is
    handed over in turn, and what its scan records is recorded by the whole
    scan. *)
Theorem code_directory_recorded run root_dir tree p files subdirs stem ext :
  visits root_dir tree p files subdirs ->
  in_list ".git" (map fst subdirs) = false ->
  In (stem ++ ext)%string files -> In ext CODE_EXTENSIONS ->
  In p (snd (scan_directory run root_dir tree))
  /\ forall name child, In (name, child) subdirs ->
       (forall files' subdirs', child = Dir files' subdirs' ->
          visits root_dir tree (OsPath.join p name) files' subdirs')
       /\ incl (fst (scan_directory run (OsPath.join p name) child))
               (fst (scan_directory run root_dir tree))
       /\ incl (snd (scan_directory run (OsPath.join p name) child))
               (snd (scan_directory run root_dir tree)).
Proof.
  intros Hv Hgit Hfile Hext.
  pose proof (has_code_intro files stem ext Hfile Hext) as Hcode.
  destruct (visits_records_kept run _ _ _ _ _ Hv) as [Hr Hu].
  rewrite scan_directory_lists. cbn [fst snd]. split.
  - apply Hu. cbn [uninit_of]. rewrite Hgit, Hcode. now left.
  - intros name child Hin. rewrite scan_directory_lists. cbn [fst snd].
    destruct (child_records_kept run p files subdirs name child Hgit Hin) as [Hr' Hu'].
    split; [| split].
    + intros files' subdirs' ->. now apply (visits_into _ _ _ files subdirs).
    + eapply incl_tran; eauto.
    + eapply incl_tran; eauto.
Qed.

Lemma code_directory_recorded_witness :
  In "/work/lab" (snd (scan_directory run_no_upstream "/work" sample_tree))
  /\ incl (snd (scan_directory run_no_upstream "/work/lab/src" (Dir ["lib.cpp"] [])))
          (snd (scan_directory run_no_upstream "/work" sample_tree)).
Proof.
  destruct (code_directory_recorded run_no_upstream "/work" sample_tree "/work/lab"
              ["script.js"] [("src", Dir ["lib.cpp"] []); ("data", Unlisted)]
              "script" ".js")
    as [Hrec Hsub].
  - apply (visits_sub "/work" _ _ "lab"
             (Dir ["script.js"] [("src", Dir ["lib.cpp"] []); ("data", Unlisted)]));
      [reflexivity | cbn; auto | constructor].
  - reflexivity.
  - cbn. auto.
  - cbn. auto.
  - split; [exact Hrec |].
    apply (Hsub "src" (Dir ["lib.cpp"] [])). cbn. auto.
Defined.

(** * Further properties of the code *)

(** ** The probe, query by query *)

Ltac probe_cases run p :=
  unfold get_git_status, try_block, run_then;
  destruct (run git_status_argv p) as [? | rc1 out1 err1]; cbn;
  [| destruct (rc1 =? 0)%Z eqn:Hrc1; cbn;
     [apply Z.eqb_eq in Hrc1; subst rc1;
      destruct (run git_upstream_argv p) as [? | rc2 out2 err2]; cbn;
      [| destruct (rc2 =? 0)%Z eqn:Hrc2; cbn;
         [apply Z.eqb_eq in Hrc2; subst rc2;
          destruct (run git_log_argv p) as [? | rc3 out3 err3]; cbn |]] |]].

(** X1.  The record says unpushed exactly when the short status and the upstream
    query exit with 0 and the log query prints something else than white
    space. *)
Theorem unpushed_iff run repo_path :
  unpushed (get_git_status run repo_path) = true <->
  exists out err out' err' rc out'' err'',
    run git_status_argv repo_path = Completed 0 out err
    /\ run git_upstream_argv repo_path = Completed 0 out' err'
    /\ run git_log_argv repo_path = Completed rc out'' err''
    /\ PyStr.truthy (PyStr.strip out'') = true.
Proof.
  split.
  - probe_cases run repo_path;
      try (destruct (PyStr.truthy (PyStr.strip out1)); cbn; discriminate);
      try discriminate.
    destruct (PyStr.truthy (PyStr.strip out3)) eqn:H3;
      [| destruct (PyStr.truthy (PyStr.strip out1)); cbn; discriminate].
    intros _. now exists out1, err1, out2, err2, rc3, out3, err3.
  - intros (out & err & out' & err' & rc & out'' & err'' & Hs & Hu & Hl & Ht).
    unfold get_git_status, try_block, run_then. rewrite Hs. cbn.
    rewrite Hu. cbn. rewrite Hl, Ht.
    destruct (PyStr.truthy (PyStr.strip out)); reflexivity.
Qed.

(** X2.  The record says dirty exactly when the short status exits with 0 and
    prints something else than white space; the later queries have no say. *)
Theorem is_dirty_iff run repo_path :
  is_dirty (get_git_status run repo_path) = true <->
  exists out err,
    run git_status_argv repo_path = Completed 0 out err
    /\ PyStr.truthy (PyStr.strip out) = true.
Proof.
  split.
  - probe_cases run repo_path; try discriminate;
      try (destruct (PyStr.truthy (PyStr.strip out3)));
      destruct (PyStr.truthy (PyStr.strip out1)) eqn:H1; cbn;
      try discriminate; intros _; now exists out1, err1.
  - intros (out & err & Hs & Ht).
    unfold get_git_status, try_block, run_then. rewrite Hs. cbn. rewrite Ht.
    destruct (run git_upstream_argv repo_path) as [e | rc out' err']; [reflexivity |].
    destruct (rc =? 0)%Z; [| reflexivity].
    destruct (run git_log_argv repo_path) as [e | rc' out'' err'']; [reflexivity |].
    destruct (PyStr.truthy (PyStr.strip out'')); reflexivity.
Qed.

(** X3.  The error is left unset exactly when the short status exits with 0, the
    upstream query returns, and the log query, if the upstream query exits
    with 0, returns too. *)
Theorem error_unset_iff run repo_path :
  error (get_git_status run repo_path) = None <->
  exists out err rc out' err',
    run git_status_argv repo_path = Completed 0 out err
    /\ run git_upstream_argv repo_path = Completed rc out' err'
    /\ (rc = 0%Z -> exists rc' out'' err'',
          run git_log_argv repo_path = Completed rc' out'' err'').
Proof.
  split.
  - probe_cases run repo_path; try discriminate;
      try (destruct (PyStr.truthy (PyStr.strip out1)); cbn; discriminate).
    + intros _. exists out1, err1, 0%Z, out2, err2.
      repeat split. intros _. now exists rc3, out3, err3.
    + intros _. exists out1, err1, rc2, out2, err2.
      repeat split. intros ->. discriminate.
  - intros (out & err & rc & out' & err' & Hs & Hu & Hl).
    unfold get_git_status, try_block, run_then. rewrite Hs. cbn. rewrite Hu.
    destruct (rc =? 0)%Z eqn:Hrc.
    + apply Z.eqb_eq in Hrc. destruct (Hl Hrc) as (rc' & out'' & err'' & ->).
      destruct (PyStr.truthy (PyStr.strip out'')),
               (PyStr.truthy (PyStr.strip out)); reflexivity.
    + destruct (PyStr.truthy (PyStr.strip out)); reflexivity.
Qed.

(** X4.  A record that says unpushed carries no error. *)
Theorem unpushed_without_error run repo_path :
  unpushed (get_git_status run repo_path) = true ->
  error (get_git_status run repo_path) = None.
Proof.
  probe_cases run repo_path; try discriminate;
    try (destruct (PyStr.truthy (PyStr.strip out1)); cbn; discriminate).
  destruct (PyStr.truthy (PyStr.strip out3)),
           (PyStr.truthy (PyStr.strip out1)); cbn; congruence.
Qed.

(** X5.  The probe stops asking as soon as the answer is settled: after a failed
    short status nothing else is read, and without an upstream resolved with
    exit code 0 the log query is not read. *)
Theorem later_queries_not_read run run' repo_path :
  run git_status_argv repo_path = run' git_status_argv repo_path ->
  status_query_failure (run git_status_argv repo_path) <> None
  \/ (run git_upstream_argv repo_path = run' git_upstream_argv repo_path
      /\ forall out err, run git_upstream_argv repo_path <> Completed 0 out err) ->
  get_git_status run repo_path = get_git_status run' repo_path.
Proof.
  intros Hs H. unfold get_git_status, try_block, run_then, status_query_failure in *.
  rewrite <- Hs.
  destruct (run git_status_argv repo_path) as [e | rc out err]; [reflexivity |].
  destruct (rc =? 0)%Z eqn:Hrc; cbn [negb]; [| reflexivity].
  destruct H as [H | [Hu Hno]]; [congruence |].
  rewrite <- Hu.
  destruct (run git_upstream_argv repo_path) as [e | rc' out' err']; [reflexivity |].
  destruct (rc' =? 0)%Z eqn:Hrc'; [| reflexivity].
  apply Z.eqb_eq in Hrc'. subst rc'. now destruct (Hno out' err').
Qed.

(** ** The scan, directory by directory *)

Section ScanMore.

Variable run : list string -> string -> RunResult.

Lemma repos_of_status : forall n top r,
  In r (repos_of run top n) -> status r = get_git_status run (path r).
Proof.
  induction n as [| files subdirs IH] using Node_induction; intros top r H.
  - destruct H.
  - rewrite Forall_forall in IH. cbn [repos_of] in H.
    destruct (in_list ".git" (map fst subdirs)).
    + destruct H as [<- | []]. reflexivity.
    + apply in_flat_map in H as (e & He & H). exact (IH e He _ _ H).
Qed.

Lemma uninit_of_NoDup : forall n top,
  well_formed n = true -> NoDup (uninit_of top n).
Proof.
  induction n as [| files subdirs IH] using Node_induction; intros top Hwf.
  - constructor.
  - pose proof (well_formed_Dir _ _ Hwf) as [Hd Hsub].
    rewrite Forall_forall in IH. cbn [uninit_of].
    destruct (in_list ".git" (map fst subdirs)); [constructor |].
    apply NoDup_app.
    + destruct (has_code files); constructor; [intros [] | constructor].
    + apply NoDup_flat_map.
      * apply distinct_NoDup in Hd. now apply NoDup_map_inv in Hd.
      * intros e He. apply (IH e He). apply (Hsub e He).
      * intros e1 e2 x H1 H2 Hx1 Hx2.
        apply (same_name_same_entry subdirs); auto.
        apply (children_apart top (fst e1) (fst e2) x x);
          [apply (Hsub e1 H1) | apply (Hsub e2 H2) | | | now left].
        -- apply (recorded_below run (snd e1)); [apply (Hsub e1 H1) | now right].
        -- apply (recorded_below run (snd e2)); [apply (Hsub e2 H2) | now right].
    + intros x Hx Hx'.
      destruct (has_code files); [| destruct Hx]. destruct Hx as [<- | []].
      apply in_flat_map in Hx' as (e & He & Hx').
      apply (below_child_not_top top (fst e) top); [apply (Hsub e He) | | reflexivity].
      apply (recorded_below run (snd e)); [apply (Hsub e He) | now right].
Qed.

(** A path recorded under a name of [top] does not pass the test against
    [top]. *)
Lemma child_not_over_top (top name p : string) :
  valid_name name = true -> below (OsPath.join top name) p ->
  is_under p top = false.
Proof.
  intros Hv Hb. destruct (is_under p top) eqn:Hu; [exfalso | reflexivity].
  pose proof (valid_name_inv _ Hv) as [Hne _].
  destruct (below_child _ _ _ Hv Hb) as (rest & Hp & _).
  apply startswith_iff in Hu as [r Hr].
  destruct (join_empty_extends p) as [t Ht]. rewrite Ht in Hr.
  destruct (join_empty_extends top) as [t' Ht']. rewrite Ht' in Hp.
  rewrite Hp in Hr. apply (f_equal String.length) in Hr.
  rewrite !str_app_length in Hr.
  destruct name; [congruence | cbn in Hr; lia].
Qed.

Lemma repo_not_over_uninit : forall n top p q,
  well_formed n = true ->
  In p (repo_paths (repos_of run top n)) -> In q (uninit_of top n) ->
  is_under p q = false.
Proof.
  induction n as [| files subdirs IH] using Node_induction;
    intros top p q Hwf Hp Hq.
  - destruct Hp.
  - pose proof (well_formed_Dir _ _ Hwf) as [Hd Hsub].
    rewrite Forall_forall in IH. cbn [repos_of uninit_of] in Hp, Hq.
    destruct (in_list ".git" (map fst subdirs)); [destruct Hq |].
    rewrite repo_paths_flat_map in Hp.
    apply in_flat_map in Hp as (e1 & He1 & Hp).
    assert (Hb1 : below (OsPath.join top (fst e1)) p).
    { apply (recorded_below run (snd e1)); [apply (Hsub e1 He1) | now left]. }
    apply in_app_or in Hq as [Hq | Hq].
    + destruct (has_code files); [| destruct Hq]. destruct Hq as [<- | []].
      apply (child_not_over_top top (fst e1)); [apply (Hsub e1 He1) | exact Hb1].
    + apply in_flat_map in Hq as (e2 & He2 & Hq).
      destruct (is_under p q) eqn:Hu; [exfalso | reflexivity].
      assert (E : e1 = e2).
      { apply (same_name_same_entry subdirs); auto.
        apply (children_apart top (fst e1) (fst e2) p q);
          [apply (Hsub e1 He1) | apply (Hsub e2 He2) | exact Hb1 | | now right].
        apply (recorded_below run (snd e2)); [apply (Hsub e2 He2) | now right]. }
      subst e2.
      rewrite (IH e1 He1 (OsPath.join top (fst e1)) p q) in Hu;
        [discriminate | apply (Hsub e1 He1) | exact Hp | exact Hq].
Qed.

(** X6.  The repository records are the directories handed to the loop that hold
    a '.git' directory. *)
Theorem repository_iff_visited_with_git root_dir tree p :
  In p (repo_paths (fst (scan_directory run root_dir tree))) <->
  exists files subdirs,
    visits root_dir tree p files subdirs
    /\ in_list ".git" (map fst subdirs) = true.
Proof.
  rewrite scan_directory_lists. cbn [fst]. split.
  - intros H. apply in_map_iff in H as (r & <- & Hr).
    now apply (repo_visited run tree root_dir r).
  - intros (files & subdirs & Hv & Hgit).
    destruct (visits_records_kept run _ _ _ _ _ Hv) as [Hr _].
    change p with (path (mkRepoInfo p (get_git_status run p))).
    apply in_map, Hr. cbn [repos_of]. rewrite Hgit. now left.
Qed.

(** X7.  The uninitialized directories are the directories handed to the loop
    that hold no '.git' directory and hold a file with a recognized
    extension. *)
Theorem uninitialized_iff_visited_with_code root_dir tree p :
  In p (snd (scan_directory run root_dir tree)) <->
  exists files subdirs,
    visits root_dir tree p files subdirs
    /\ in_list ".git" (map fst subdirs) = false
    /\ has_code files = true.
Proof.
  rewrite scan_directory_lists. cbn [snd]. split.
  - apply uninit_visited.
  - intros (files & subdirs & Hv & Hgit & Hcode).
    destruct (visits_records_kept run _ _ _ _ _ Hv) as [_ Hu].
    apply Hu. cbn [uninit_of]. rewrite Hgit, Hcode. now left.
Qed.

(** X8.  Each repository record carries the status that the probe gives for its
    own path. *)
Theorem record_status_is_probe_of_path root_dir tree r :
  In r (fst (scan_directory run root_dir tree)) ->
  status r = get_git_status run (path r).
Proof.
  rewrite scan_directory_lists. cbn [fst]. apply repos_of_status.
Qed.

(** X9.  No directory is listed twice as uninitialized. *)
Theorem uninitialized_listed_once root_dir tree :
  well_formed tree = true ->
  NoDup (snd (scan_directory run root_dir tree)).
Proof.
  intros Hwf. rewrite scan_directory_lists. cbn [snd].
  now apply uninit_of_NoDup.
Qed.

(** X10.  No uninitialized directory lies under a repository root. *)
Theorem uninitialized_not_inside_repository root_dir tree r u :
  well_formed tree = true ->
  In r (fst (scan_directory run root_dir tree)) ->
  In u (snd (scan_directory run root_dir tree)) ->
  ~ strict_segment_prefix (path r) u.
Proof.
  intros Hwf. rewrite scan_directory_lists. cbn [fst snd]. intros Hr Hu H.
  apply (in_map path) in Hr. fold (repo_paths (repos_of run root_dir tree)) in Hr.
  destruct H as (Hne & Hrest).
  assert (Hs : strict_segment_prefix (path r) u) by (split; assumption).
  apply is_under_iff_strict_segment_prefix in Hs; [| exact Hne].
  rewrite (repo_not_over_uninit tree root_dir _ _ Hwf Hr Hu) in Hs. discriminate.
Qed.

End ScanMore.

(** ** The filter as a whole *)

Local Open Scope string_scope.

Lemma is_under_trans (q p d : string) :
  is_under q p = true -> is_under p d = true -> is_under q d = true.
Proof.
  intros H1 H2. apply startswith_iff in H1 as [r1 H1].
  apply startswith_iff in H2 as [r2 H2].
  destruct (join_empty_extends p) as [t Ht]. rewrite Ht in H2.
  apply startswith_iff. exists (r1 ++ t ++ r2).
  now rewrite H2, H1, !str_app_assoc.
Qed.

Local Open Scope list_scope.

(** X11.  The survivors are the input paths without a strict path-segment prefix in
    the input: the topmost ones. *)
Theorem survivor_iff_topmost (uninit : list string) (d : string) :
  In d (filtered_uninit uninit) <->
  In d uninit /\ forall p, In p uninit -> ~ strict_segment_prefix p d.
Proof.
  pose proof (filtered_uninit_unrelated uninit) as Hun.
  assert (Hincl : forall x, In x (filtered_uninit uninit) -> In x uninit).
  { intros x H. apply filter_loop_origin in H as [[] | H]. now apply list_sort_In. }
  assert (Hrep : forall x, In x uninit ->
            In x (filtered_uninit uninit)
            \/ exists p, In p (filtered_uninit uninit) /\ is_under p x = true).
  { intros x H. apply list_sort_In in H.
    exact (filter_loop_represented _ [] x H). }
  split.
  - intros Hd. split; [now apply Hincl |].
    intros p Hp Hs. pose proof Hs as (Hne & _).
    apply is_under_iff_strict_segment_prefix in Hs; [| exact Hne].
    assert (Hq : exists q, In q (filtered_uninit uninit)
                           /\ q <> d /\ is_under q d = true).
    { destruct (Hrep p Hp) as [Hin | (q & Hq & Hqp)]; [now exists p |].
      destruct (string_dec q p) as [-> | Hqne]; [now exists p |].
      exists q. split; [exact Hq |]. split; [| now apply (is_under_trans q p d)].
      intros ->.
      pose proof (is_under_sorts_after _ _ Hqne Hqp) as H1.
      pose proof (is_under_sorts_after _ _ Hne Hs) as H2.
      destruct (String.leb_total p d); congruence. }
    destruct Hq as (q & Hq & Hqne & Hqd).
    rewrite (Hun q d Hq Hd Hqne) in Hqd. discriminate.
  - intros [Hd Htop].
    destruct (Hrep d Hd) as [Hin | (p & Hp & Hu)]; [exact Hin |].
    destruct (string_dec p d) as [-> | Hne]; [exact Hp |].
    exfalso. apply (Htop p (Hincl p Hp)).
    now apply is_under_iff_strict_segment_prefix.
Qed.

Lemma list_sort_of_sorted l : lex_sorted l -> list_sort l = l.
Proof.
  intros H. apply lex_sorted_unique; [apply list_sort_sorted | exact H |].
  unfold list_sort. apply Permutation_sym, StringSort.Permuted_sort.
Qed.

Lemma settled_step kept d : settled kept -> settled (filter_step kept d).
Proof.
  intros H. unfold filter_step.
  destruct (existsb (fun parent => is_under parent d) kept) eqn:E; cbn [negb];
    [exact H |].
  intros l1 x l2 Heq.
  destruct l2 as [| y l2] using rev_ind.
  - apply app_inj_tail in Heq as [-> ->]. exact E.
  - clear IHl2. rewrite app_comm_cons, app_assoc in Heq.
    apply app_inj_tail in Heq as [Heq _]. now apply (H l1 x l2).
Qed.

Lemma settled_loop todo : forall kept,
  settled kept -> settled (fold_left filter_step todo kept).
Proof.
  induction todo as [| d todo IH]; intros kept H; cbn; [exact H |].
  apply IH. now apply settled_step.
Qed.

Lemma settled_kept_as_is l2 : forall l1,
  settled (l1 ++ l2) -> fold_left filter_step l2 l1 = l1 ++ l2.
Proof.
  induction l2 as [| d l2 IH]; intros l1 H; cbn [fold_left].
  - now rewrite app_nil_r.
  - unfold filter_step at 2. rewrite (H l1 d l2 eq_refl). cbn [negb].
    rewrite IH; rewrite <- app_assoc; [reflexivity | exact H].
Qed.

(** X12.  Filtering a second time changes nothing. *)
Theorem filter_idempotent (uninit : list string) :
  filtered_uninit (filtered_uninit uninit) = filtered_uninit uninit.
Proof.
  assert (Hs : lex_sorted (filtered_uninit uninit))
    by (apply filter_loop_sorted, in_order_start).
  assert (Hset : settled (filtered_uninit uninit)).
  { apply settled_loop. intros l1 d l2 H. now destruct l1. }
  unfold filtered_uninit at 1. rewrite (list_sort_of_sorted _ Hs).
  now rewrite (settled_kept_as_is (filtered_uninit uninit) []).
Qed.

(** X13.  The outcome does not depend on the order in which the candidates were
    collected. *)
Theorem filter_order_independent (l l' : list string) :
  Permutation l l' -> filtered_uninit l = filtered_uninit l'.
Proof.
  intros HP. unfold filtered_uninit. f_equal.
  apply lex_sorted_unique; try apply list_sort_sorted.
  unfold list_sort.
  eapply Permutation_trans; [apply Permutation_sym, StringSort.Permuted_sort |].
  eapply Permutation_trans; [exact HP | apply StringSort.Permuted_sort].
Qed.

(** ** The report *)

Local Open Scope string_scope.

(** X14.  The icon and the text of a line agree: [OK] goes with CLEAN alone, [!]
    with an ERROR entry alone, [*] with a mention of DIRTY or UNPUSHED. *)
Theorem icon_agrees_with_text (st : Status) :
  (icon st = "[OK]" <-> status_str st = ["CLEAN"])
  /\ (icon st = "[!]" <-> exists e, status_str st = ["[ERROR: " ++ e ++ "]"])
  /\ (icon st = "[*]" <->
        In "DIRTY (Uncommitted)" (status_str st)
        \/ In "UNPUSHED COMMITS" (status_str st)).
Proof.
  destruct st as [d u [[| c e] |]]; destruct d, u; cbn;
    repeat split; intros H;
    try reflexivity; try discriminate H; auto;
    try (now exists (String c e));
    try (destruct H as [? H]; discriminate H);
    try (destruct H as [[H | []] | [H | []]]; discriminate H);
    try (destruct H as [[H | [H | []]] | [H | [H | []]]]; discriminate H).
Qed.

(** X15.  A failed short status is shown with [!] and its diagnostic, unless the
    diagnostic is empty: then the repository is shown as [OK] and CLEAN. *)
Theorem failed_status_query_line run repo_path rel_path diagnostic :
  status_query_failure (run git_status_argv repo_path) = Some diagnostic ->
  repo_line rel_path (get_git_status run repo_path) =
  if PyStr.truthy diagnostic
  then "[!] " ++ rel_path ++ "  =>  [ERROR: " ++ diagnostic ++ "]"
  else "[OK] " ++ rel_path ++ "  =>  CLEAN".
Proof.
  unfold status_query_failure, get_git_status, try_block, run_then.
  destruct (run git_status_argv repo_path) as [e | rc out err].
  - intros [= <-]. unfold repo_line, icon, status_str. cbn.
    destruct (str e); reflexivity.
  - destruct (rc =? 0)%Z; [discriminate |]. intros [= <-].
    unfold repo_line, icon, status_str. cbn.
    destruct (PyStr.strip err); reflexivity.
Qed.

Lemma failed_status_query_line_witness :
  repo_line "x" (get_git_status run_not_a_repo "/work/x")
    = "[!] x  =>  [ERROR: fatal: not a git repository]"
  /\ repo_line "x" (get_git_status run_silent_failure "/work/x")
    = "[OK] x  =>  CLEAN".
Proof.
  split.
  - apply (failed_status_query_line run_not_a_repo "/work/x" "x"
             "fatal: not a git repository"). reflexivity.
  - apply (failed_status_query_line run_silent_failure "/work/x" "x" "").
    reflexivity.
Defined.

(** X16.  When a query raises after the short status found changes, the record
    keeps is_dirty = true, but its line shows the error alone. *)
Theorem dirty_hidden_by_later_error run repo_path rel_path out err e :
  run git_status_argv repo_path = Completed 0 out err ->
  PyStr.truthy (PyStr.strip out) = true ->
  run git_upstream_argv repo_path = Raised e ->
  str e <> "" ->
  is_dirty (get_git_status run repo_path) = true
  /\ repo_line rel_path (get_git_status run repo_path)
     = "[!] " ++ rel_path ++ "  =>  [ERROR: " ++ str e ++ "]".
Proof.
  intros Hs Ht Hu He.
  unfold get_git_status, try_block, run_then. rewrite Hs. cbn. rewrite Ht, Hu.
  split; [reflexivity |].
  unfold repo_line, icon, status_str. cbn.
  destruct (str e); [congruence | reflexivity].
Qed.

Lemma dirty_hidden_by_later_error_witness :
  is_dirty (get_git_status run_upstream_raises "/work/x") = true
  /\ repo_line "x" (get_git_status run_upstream_raises "/work/x")
     = "[!] x  =>  [ERROR: [Errno 24] Too many open files]".
Proof.
  apply (dirty_hidden_by_later_error run_upstream_raises "/work/x" "x"
           " M main.py
" "" (mkException "[Errno 24] Too many open files"));
    [reflexivity | reflexivity | reflexivity | discriminate].
Defined.

(** ** The report as a whole *)

Local Open Scope list_scope.

Lemma str_ltb_leb a b : String.ltb a b = true -> String.leb a b = true.
Proof. unfold String.ltb, String.leb. now destruct (String.compare a b). Qed.

Lemma str_ltb_false_leb a b : String.ltb a b = false -> String.leb b a = true.
Proof.
  unfold String.ltb, String.leb. rewrite (String.compare_antisym a b).
  now destruct (String.compare b a).
Qed.

Lemma insert_by_path_perm r l : Permutation (r :: l) (insert_by_path r l).
Proof.
  induction l as [| x l IH]; cbn; [apply Permutation_refl |].
  destruct (String.ltb (path x) (path r)); [| apply Permutation_refl].
  eapply Permutation_trans; [apply perm_swap | now constructor].
Qed.

Lemma insert_by_path_sorted r l :
  sorted_by_path l -> sorted_by_path (insert_by_path r l).
Proof.
  unfold sorted_by_path. induction 1 as [| x l Hl IH Hx]; cbn.
  - constructor; constructor.
  - destruct (String.ltb (path x) (path r)) eqn:E.
    + constructor; [exact IH |].
      rewrite Forall_forall in *. intros y Hy.
      apply (Permutation_in _ (Permutation_sym (insert_by_path_perm r l))) in Hy.
      destruct Hy as [<- | Hy]; [now apply str_ltb_leb | now apply Hx].
    + apply str_ltb_false_leb in E.
      constructor; [now constructor |].
      constructor; [exact E |].
      rewrite Forall_forall in *. intros y Hy.
      eapply str_leb_trans; [exact E | now apply Hx].
Qed.

Lemma sort_by_path_perm l : Permutation l (sort_by_path l).
Proof.
  induction l as [| r l IH]; cbn; [constructor |].
  eapply Permutation_trans; [| apply insert_by_path_perm]. now constructor.
Qed.

Lemma sort_by_path_sorted l : sorted_by_path (sort_by_path l).
Proof.
  induction l as [| r l IH]; cbn; [constructor | now apply insert_by_path_sorted].
Qed.

Section ReportFacts.

Variable relpath : string -> string -> Exception + string.

Lemma print_repos_all root_dir repos : forall out,
  (forall r, In r repos -> exists rel, relpath (path r) root_dir = inr rel) ->
  print_repos relpath root_dir repos out
  = (out ++ map (fun r => repo_line (rel_of relpath root_dir (path r)) (status r))
                repos, None).
Proof.
  induction repos as [| r repos IH]; intros out H; cbn [print_repos map].
  - now rewrite app_nil_r.
  - destruct (H r (or_introl eq_refl)) as [rel Hrel].
    unfold rel_of at 1. rewrite Hrel.
    rewrite IH by (intros r' Hr'; apply H; now right).
    now rewrite <- app_assoc.
Qed.

Lemma print_uninit_all root_dir dirs : forall out,
  (forall d, In d dirs -> exists rel, relpath d root_dir = inr rel) ->
  print_uninit relpath root_dir dirs out
  = (out ++ map (fun d => ("[?] " ++ rel_of relpath root_dir d)%string) dirs, None).
Proof.
  induction dirs as [| d dirs IH]; intros out H; cbn [print_uninit map].
  - now rewrite app_nil_r.
  - destruct (H d (or_introl eq_refl)) as [rel Hrel].
    unfold rel_of at 1. rewrite Hrel.
    rewrite IH by (intros d' Hd'; apply H; now right).
    now rewrite <- app_assoc.
Qed.

Lemma print_repos_stops root_dir repos : forall out r e,
  In r repos -> relpath (path r) root_dir = inl e ->
  exists e',
    snd (print_repos relpath root_dir repos out) = Some e'
    /\ List.length (fst (print_repos relpath root_dir repos out))
       < List.length out + List.length repos.
Proof.
  induction repos as [| x repos IH]; intros out r e Hin Hr; [destruct Hin |].
  cbn [print_repos]. destruct (relpath (path x) root_dir) as [e0 | rel] eqn:Hx.
  - exists e0. cbn. split; [reflexivity | lia].
  - destruct Hin as [-> | Hin]; [congruence |].
    destruct (IH (out ++ [repo_line rel (status x)]) r e Hin Hr) as (e' & H1 & H2).
    exists e'. split; [exact H1 |].
    rewrite length_app in H2. cbn in *. lia.
Qed.

(** X17.  When [relpath] answers for every path, the report is the header with the
    number of records, one line for each record in increasing order of the
    paths, and, when there are candidates, the second header with the number
    of candidates before the filter, followed by one line for each candidate
    that the filter keeps. *)
Theorem print_report_lines repos uninit root_dir :
  (forall r, In r repos -> exists rel, relpath (path r) root_dir = inr rel) ->
  (forall d, In d uninit -> exists rel, relpath d root_dir = inr rel) ->
  exists sorted,
    Permutation repos sorted /\ sorted_by_path sorted
    /\ List.length (filtered_uninit uninit) <= List.length uninit
    /\ print_report relpath repos uninit root_dir =
       ([rule;
         ("GIT REPOSITORIES FOUND: " ++ str_of_nat (List.length repos))%string;
         rule]
        ++ map (fun r => repo_line (rel_of relpath root_dir (path r)) (status r))
               sorted
        ++ match uninit with
           | [] => []
           | _ :: _ =>
               [String "010"%char rule;
                ("UNINITIALIZED CODE DIRECTORIES (Potential Projects): "
                 ++ str_of_nat (List.length uninit))%string;
                "(Showing top-level non-nested matches to reduce noise)"%string;
                rule]
               ++ map (fun d => ("[?] " ++ rel_of relpath root_dir d)%string)
                      (filtered_uninit uninit)
           end,
        None).
Proof.
  intros Hr Hu. exists (sort_by_path repos).
  split; [apply sort_by_path_perm |]. split; [apply sort_by_path_sorted |].
  split.
  - destruct (filter_loop_picks (list_sort uninit) []) as (dropped & HP & _).
    cbn [app] in HP. apply Permutation_length in HP.
    pose proof (Permutation_length (StringSort.Permuted_sort uninit)) as HL.
    unfold filtered_uninit, list_sort in *. rewrite length_app in HP. lia.
  - unfold print_report. rewrite print_repos_all.
    + destruct uninit as [| d uninit]; [now rewrite app_nil_r |].
      rewrite print_uninit_all.
      * now rewrite <- !app_assoc.
      * intros x Hx. apply Hu.
        apply filter_loop_origin in Hx as [[] | Hx]. now apply list_sort_In.
    + intros r Hin. apply Hr.
      eapply Permutation_in; [apply Permutation_sym, sort_by_path_perm | exact Hin].
Qed.

(** The loop over the records stops at the first record for which [relpath]
    raises, with the lines of the records before it. *)
Lemma print_repos_first_failure root_dir repos : forall out r e,
  In r repos -> relpath (path r) root_dir = inl e ->
  exists before r' after e',
    repos = before ++ r' :: after
    /\ (forall x, In x before -> exists rel, relpath (path x) root_dir = inr rel)
    /\ relpath (path r') root_dir = inl e'
    /\ print_repos relpath root_dir repos out
       = (out ++ map (fun x => repo_line (rel_of relpath root_dir (path x))
                                         (status x)) before,
          Some e').
Proof.
  induction repos as [| x repos IH]; intros out r e Hin Hr; [destruct Hin |].
  cbn [print_repos]. destruct (relpath (path x) root_dir) as [e0 | rel] eqn:Hx.
  - exists [], x, repos, e0. cbn. rewrite app_nil_r. repeat split; auto.
    intros y [].
  - destruct Hin as [-> | Hin]; [congruence |].
    destruct (IH (out ++ [repo_line rel (status x)]) r e Hin Hr)
      as (before & r' & after & e' & -> & Hb & Hr' & Hp).
    exists (x :: before), r', after, e'. repeat split; auto.
    + intros y [<- | Hy]; [now exists rel | now apply Hb].
    + rewrite Hp. cbn [map].
      replace (rel_of relpath root_dir (path x)) with rel
        by (unfold rel_of; now rewrite Hx).
      now rewrite <- app_assoc.
Qed.

(** X18.  [print_report] has no handler: when [relpath] raises for the path of
    a record, what it prints is the header and the lines of the records that
    sort before the first one for which [relpath] raises, the exception that
    [relpath] raised for that one comes out of it, and nothing of the section
    of the candidates is printed. *)
Theorem print_report_lets_exception_through repos uninit root_dir r e :
  In r repos -> relpath (path r) root_dir = inl e ->
  exists sorted before r' after e',
    Permutation repos sorted /\ sorted_by_path sorted
    /\ sorted = before ++ r' :: after
    /\ (forall x, In x before -> exists rel, relpath (path x) root_dir = inr rel)
    /\ relpath (path r') root_dir = inl e'
    /\ print_report relpath repos uninit root_dir
       = ([rule;
           ("GIT REPOSITORIES FOUND: " ++ str_of_nat (List.length repos))%string;
           rule]
          ++ map (fun x => repo_line (rel_of relpath root_dir (path x)) (status x))
                 before,
          Some e').
Proof.
  intros Hin Hr.
  assert (Hin' : In r (sort_by_path repos))
    by (eapply Permutation_in; [apply sort_by_path_perm | exact Hin]).
  destruct (print_repos_first_failure root_dir (sort_by_path repos)
              [rule;
               ("GIT REPOSITORIES FOUND: " ++ str_of_nat (List.length repos))%string;
               rule] r e Hin' Hr)
    as (before & r' & after & e' & Hs & Hb & Hr' & Hp).
  exists (sort_by_path repos), before, r', after, e'.
  split; [apply sort_by_path_perm |]. split; [apply sort_by_path_sorted |].
  split; [exact Hs |]. split; [exact Hb |]. split; [exact Hr' |].
  unfold print_report. now rewrite Hp.
Qed.

End ReportFacts.

(** ** Instances *)

Lemma unpushed_without_error_witness :
  error (get_git_status run_ahead "/work/x") = None.
Proof.
  apply (unpushed_without_error run_ahead "/work/x"). reflexivity.
Defined.

Lemma later_queries_not_read_witness :
  get_git_status run_no_upstream "/work/x"
  = get_git_status run_no_upstream_log "/work/x".
Proof.
  apply (later_queries_not_read run_no_upstream run_no_upstream_log "/work/x").
  - reflexivity.
  - right. split; [reflexivity |]. intros out err. discriminate.
Defined.

Lemma record_status_is_probe_of_path_witness :
  mkStatus true false None = get_git_status run_no_upstream "/work/app".
Proof.
  apply (record_status_is_probe_of_path run_no_upstream "/work" sample_tree
           (mkRepoInfo "/work/app" (mkStatus true false None))).
  vm_compute. auto.
Defined.

Lemma uninitialized_listed_once_witness :
  NoDup (snd (scan_directory run_no_upstream "/work" sample_tree)).
Proof.
  apply (uninitialized_listed_once run_no_upstream "/work" sample_tree).
  reflexivity.
Defined.

Lemma uninitialized_not_inside_repository_witness :
  ~ strict_segment_prefix "/work/app" "/work/lab/src".
Proof.
  apply (uninitialized_not_inside_repository run_no_upstream "/work" sample_tree
           (mkRepoInfo "/work/app" (mkStatus true false None)) "/work/lab/src").
  - reflexivity.
  - vm_compute. auto.
  - vm_compute. auto.
Defined.

Lemma filter_order_independent_witness :
  filtered_uninit ["/a/b"; "/a"] = filtered_uninit ["/a"; "/a/b"].
Proof.
  apply (filter_order_independent ["/a/b"; "/a"] ["/a"; "/a/b"]).
  apply perm_swap.
Defined.

Lemma print_report_lines_witness :
  exists sorted,
    Permutation (fst (scan_directory run_no_upstream "/work" sample_tree)) sorted
    /\ sorted_by_path sorted
    /\ List.length (filtered_uninit ["/work/lab"; "/work/lab/src"]) <= 2
    /\ print_report relpath_sample
         (fst (scan_directory run_no_upstream "/work" sample_tree))
         ["/work/lab"; "/work/lab/src"] "/work"
       = ([rule; "GIT REPOSITORIES FOUND: 2"%string; rule]
          ++ map (fun r => repo_line (rel_of relpath_sample "/work" (path r))
                                     (status r)) sorted
          ++ [String "010"%char rule;
              "UNINITIALIZED CODE DIRECTORIES (Potential Projects): 2"%string;
              "(Showing top-level non-nested matches to reduce noise)"%string;
              rule]
          ++ map (fun d => ("[?] " ++ rel_of relpath_sample "/work" d)%string)
                 (filtered_uninit ["/work/lab"; "/work/lab/src"]),
          None).
Proof.
  apply (print_report_lines relpath_sample
           (fst (scan_directory run_no_upstream "/work" sample_tree))
           ["/work/lab"; "/work/lab/src"] "/work").
  - vm_compute. intros r [<- | [<- | []]]; eexists; reflexivity.
  - vm_compute. intros d [<- | [<- | []]]; eexists; reflexivity.
Defined.

Lemma print_report_lets_exception_through_witness :
  exists sorted before r' after e',
    Permutation [mkRepoInfo "/elsewhere" (mkStatus false false None);
                 mkRepoInfo "/work/app" (mkStatus true false None)] sorted
    /\ sorted_by_path sorted
    /\ sorted = before ++ r' :: after
    /\ (forall x, In x before ->
          exists rel, relpath_sample (path x) "/work" = inr rel)
    /\ relpath_sample (path r') "/work" = inl e'
    /\ print_report relpath_sample
         [mkRepoInfo "/elsewhere" (mkStatus false false None);
          mkRepoInfo "/work/app" (mkStatus true false None)]
         ["/work/lab"] "/work"
       = ([rule; "GIT REPOSITORIES FOUND: 2"%string; rule]
          ++ map (fun x => repo_line (rel_of relpath_sample "/work" (path x))
                                     (status x)) before,
          Some e').
Proof.
  apply (print_report_lets_exception_through relpath_sample
           [mkRepoInfo "/elsewhere" (mkStatus false false None);
            mkRepoInfo "/work/app" (mkStatus true false None)]
           ["/work/lab"] "/work"
           (mkRepoInfo "/elsewhere" (mkStatus false false None))
           (mkException "no path specified")).
  - now left.
  - reflexivity.
Defined.

(** ** The probe under interrupts *)

(** Over a mechanism that answers as a restricted one does, the probe
    returns the record of [get_git_status]. *)
Lemma full_probe_restricts run_any run repo_path :
  (forall argv, In argv probe_queries ->
     run_any argv repo_path = Full.of_run_result (run argv repo_path)) ->
  Full.get_git_status run_any repo_path
  = Full.Returned (get_git_status run repo_path).
Proof.
  intros H.
  pose proof (H git_status_argv (or_introl eq_refl)) as Hs.
  pose proof (H git_upstream_argv (or_intror (or_introl eq_refl))) as Hu.
  pose proof (H git_log_argv (or_intror (or_intror (or_introl eq_refl)))) as Hl.
  unfold Full.get_git_status, Full.try_block, Full.run_then,
    get_git_status, try_block, run_then.
  rewrite Hs. destruct (run git_status_argv repo_path) as [e | rc out err];
    cbn; [reflexivity |].
  destruct (rc =? 0)%Z; cbn; [| reflexivity].
  rewrite Hu. destruct (run git_upstream_argv repo_path) as [e | rc' out' err'];
    cbn; [reflexivity |].
  destruct (rc' =? 0)%Z; cbn; [| reflexivity].
  rewrite Hl. destruct (run git_log_argv repo_path) as [e | rc'' out'' err''];
    cbn; [reflexivity |].
  destruct (PyStr.truthy (PyStr.strip out'')); reflexivity.
Qed.





(** X19.  An exception outside class Exception that is raised by a query
    that the probe runs comes out of the probe: no record is returned. *)
Theorem interrupt_propagates run repo_path class_name :
  Full.query_raises run repo_path (Full.OutsideException class_name) ->
  Full.get_git_status run repo_path
  = Full.Propagated (Full.OutsideException class_name).
Proof.
  intros [Hs | out err Hs Hu | out err out' err' Hs Hu Hl];
    unfold Full.get_git_status, Full.try_block, Full.run_then; rewrite Hs.
  - reflexivity.
  - cbn. now rewrite Hu.
  - cbn. rewrite Hu. cbn. now rewrite Hl.
Qed.

Lemma interrupt_propagates_witness :
  Full.get_git_status run_interrupted "/work/x"
  = Full.Propagated (Full.OutsideException "KeyboardInterrupt").
Proof.
  apply (interrupt_propagates run_interrupted "/work/x" "KeyboardInterrupt").
  apply Full.status_raises. reflexivity.
Defined.
